(** * Incident list: normalisation, store and sorted view

    A shallow embedding of the IncidentList React component and the
    properties of its incident synchronisation and presentation logic.
    The repository holds three variants of the component; the two that
    fetch incidents are embedded, each in a module of its own.

    The component keeps five pieces of state ([incidents], [loading],
    [error], [selectedIncidents], [sortConfig]); every handler is embedded
    as a function from the state before the call to the state after it. *)

From Stdlib Require Import ZArith Lia Sorting.Sorted Sorting.Permutation.
From stdpp Require Import base decidable countable list strings gmap pretty sorting.

Local Open Scope Z_scope.
Local Open Scope string_scope.

(** ** JavaScript values

    The payload of a response is parsed JSON; property reads add
    [undefined].  Numbers are the integral ones ([NaN] cannot occur in
    JSON, and only whether a number is zero matters to the code below).
    An object lists its own enumerable properties in the order in which
    the runtime enumerates them, with pairwise distinct names; a string
    is its sequence of code units. *)
#[warnings="-register-all"]
Inductive JsVal : Type :=
  | JUndefined
  | JNull
  | JBool (b : bool)
  | JNum (n : Z)
  | JStr (s : string)
  | JArr (items : list JsVal)
  | JObj (fields : list (string * JsVal)).

(** Induction principle that also descends into arrays and objects. *)
Fixpoint JsVal_ind_nested (P : JsVal → Prop)
    (Hundef : P JUndefined) (Hnull : P JNull)
    (Hbool : ∀ b, P (JBool b)) (Hnum : ∀ n, P (JNum n))
    (Hstr : ∀ s, P (JStr s))
    (Harr : ∀ items, Forall P items → P (JArr items))
    (Hobj : ∀ fields, Forall (λ kv, P kv.2) fields → P (JObj fields))
    (v : JsVal) : P v :=
  let go := JsVal_ind_nested P Hundef Hnull Hbool Hnum Hstr Harr Hobj in
  match v with
  | JUndefined => Hundef
  | JNull => Hnull
  | JBool b => Hbool b
  | JNum n => Hnum n
  | JStr s => Hstr s
  | JArr items =>
      Harr items
        ((fix all (l : list JsVal) : Forall P l :=
            match l with
            | [] => List.Forall_nil P
            | x :: l' => List.Forall_cons P x l' (go x) (all l')
            end) items)
  | JObj fields =>
      Hobj fields
        ((fix all (l : list (string * JsVal)) : Forall (λ kv, P kv.2) l :=
            match l with
            | [] => List.Forall_nil _
            | kv :: l' => List.Forall_cons _ kv l' (go kv.2) (all l')
            end) fields)
  end.

(** Encoding into stdpp's generic trees, from which decidable equality and
    countability follow (the selection set is a finite set of ids). *)
Fixpoint JsVal_enc (v : JsVal) : gen_tree (bool + Z + string) :=
  match v with
  | JUndefined => GenNode 0 []
  | JNull => GenNode 1 []
  | JBool b => GenLeaf (inl (inl b))
  | JNum n => GenLeaf (inl (inr n))
  | JStr s => GenLeaf (inr s)
  | JArr items => GenNode 2 (JsVal_enc <$> items)
  | JObj fields =>
      GenNode 3 ((λ kv, GenNode 4 [GenLeaf (inr kv.1); JsVal_enc kv.2]) <$> fields)
  end.

Fixpoint JsVal_dec (t : gen_tree (bool + Z + string)) : JsVal :=
  match t with
  | GenLeaf (inl (inl b)) => JBool b
  | GenLeaf (inl (inr n)) => JNum n
  | GenLeaf (inr s) => JStr s
  | GenNode 0 _ => JUndefined
  | GenNode 1 _ => JNull
  | GenNode 2 ts => JArr (JsVal_dec <$> ts)
  | GenNode 3 ts =>
      JObj ((λ t, match t with
                  | GenNode _ [GenLeaf (inr k); t'] => (k, JsVal_dec t')
                  | _ => ("", JUndefined)
                  end) <$> ts)
  | GenNode _ _ => JUndefined
  end.

Lemma JsVal_dec_enc (v : JsVal) : JsVal_dec (JsVal_enc v) = v.
Proof.
  induction v as [| | b | n | s | items IH | fields IH] using JsVal_ind_nested;
    simpl; try reflexivity.
  - f_equal. rewrite <- list_fmap_compose.
    induction IH as [| x l Hx _ IHl]; simpl; [reflexivity |].
    rewrite Hx. f_equal. exact IHl.
  - f_equal. rewrite <- list_fmap_compose.
    induction IH as [| [k x] l Hx _ IHl]; simpl; [reflexivity |].
    simpl in Hx. rewrite Hx. f_equal. exact IHl.
Qed.

#[global] Instance JsVal_enc_inj : Inj (=) (=) JsVal_enc.
Proof.
  intros x y Hxy. rewrite <- (JsVal_dec_enc x), <- (JsVal_dec_enc y).
  by rewrite Hxy.
Qed.

#[global] Instance JsVal_eq_dec : EqDecision JsVal.
Proof.
  intros x y. destruct (decide (JsVal_enc x = JsVal_enc y)) as [H | H].
  - left. by apply (inj JsVal_enc).
  - right. intros ->. by apply H.
Defined.

#[global] Instance JsVal_countable : Countable JsVal.
Proof. apply (inj_countable' JsVal_enc JsVal_dec), JsVal_dec_enc. Defined.

(** ** Primitive operations of the language *)

(** [ToBoolean]: the test behind [a || b], [a && b] and [if (a)]. *)
Definition truthy (v : JsVal) : bool :=
  match v with
  | JUndefined | JNull => false
  | JBool b => b
  | JNum n => negb (n =? 0)%Z
  | JStr s => negb (String.eqb s "")
  | JArr _ | JObj _ => true
  end.

(** [a || b]. *)
Definition js_or (a b : JsVal) : JsVal := if truthy a then a else b.
Infix "<||>" := js_or (at level 45, right associativity).

(** [v == null]: true of [null] and [undefined] only. *)
Definition nullish (v : JsVal) : bool :=
  match v with JUndefined | JNull => true | _ => false end.

Definition Array_isArray (v : JsVal) : bool :=
  match v with JArr _ => true | _ => false end.

(** The code units of a string, each as a one-unit string. *)
Definition chars (s : string) : list JsVal :=
  (λ c, JStr (String c "")) <$> String.list_ascii_of_string s.

(** [s.startsWith(t)] and [s.includes(t)], on code units.  The text
    outside ASCII is held here in UTF-8, in which a search for well-formed
    text finds the occurrences that the search on code units finds. *)
Fixpoint String_startsWith (s t : string) : bool :=
  match t, s with
  | EmptyString, _ => true
  | String _ _, EmptyString => false
  | String c t', String d s' => bool_decide (c = d) && String_startsWith s' t'
  end.

Fixpoint String_includes (s t : string) : bool :=
  String_startsWith s t
  || match s with
     | EmptyString => false
     | String _ s' => String_includes s' t
     end.

(** Properties of an array-like value: index [i], written in decimal,
    holds element [i]. *)
Definition index_props (items : list JsVal) : gmap string JsVal :=
  list_to_map (imap (λ i v, (pretty i, v)) items).

(** Own enumerable properties by name; [None] for [null] and [undefined],
    which have none and on which a property read throws.  None of the
    property names the component reads is inherited from a prototype of a
    JSON value, so a read is a lookup here. *)
Definition own_props (v : JsVal) : option (gmap string JsVal) :=
  match v with
  | JUndefined | JNull => None
  | JBool _ | JNum _ => Some ∅
  | JStr s => Some (index_props (chars s))
  | JArr items => Some (index_props items)
  | JObj fields => Some (list_to_map fields)
  end.

(** [p[k]] on a property map: [undefined] when absent. *)
Definition prop (p : gmap string JsVal) (k : string) : JsVal :=
  default JUndefined (p !! k).

(** [v?.k]. *)
Definition opt_get (v : JsVal) (k : string) : JsVal :=
  match own_props v with
  | Some p => prop p k
  | None => JUndefined
  end.

(** Abrupt and normal completion of an evaluation. *)
Inductive Completion (A : Type) : Type :=
  | Normal (a : A)
  | Throw (err : JsVal).
Arguments Normal {A} a.
Arguments Throw {A} err.

#[global] Instance Completion_bind : MBind Completion := λ A B k c,
  match c with
  | Normal a => k a
  | Throw err => Throw err
  end.

(** ** The runtime

    Library functions of the host that the component calls.  They are
    deterministic; their results are fixed by the engine, not by the
    component. *)
Class Runtime : Type := {
  (** message of the [TypeError] raised by reading property [k] of [v],
      for [v] one of [null] and [undefined] *)
  TypeError_message : JsVal → string → string;
  (** time value, in milliseconds, of [new Date(v)]; [None] is [NaN],
      the time value of an invalid date *)
  Date_time : JsVal → option Z;
  (** sign of [a.localeCompare(b)] as an integer *)
  localeCompare : string → string → Z;
  (** [a < b] *)
  js_lt : JsVal → JsVal → bool
}.

(** What one fetch draws from the clock and the random generator: the
    strings [Math.random().toString(36).substr(2, 9)] and
    [new Date().toISOString()] would give while entry [i] is mapped. *)
Record Entropy : Type := {
  random_id : nat → string;
  now_iso : nat → string
}.

(** The error object of a failed property read. *)
Definition TypeError `{Runtime} (v : JsVal) (k : string) : JsVal :=
  JObj [("message", JStr (TypeError_message v k))].

(** [v.k]. *)
Definition js_get `{Runtime} (v : JsVal) (k : string) : Completion JsVal :=
  match own_props v with
  | Some p => Normal (prop p k)
  | None => Throw (TypeError v k)
  end.

(** [Object.values(v)]. *)
Definition Object_values `{Runtime} (v : JsVal) : Completion (list JsVal) :=
  match v with
  | JUndefined | JNull => Throw (TypeError v "values")
  | JBool _ | JNum _ => Normal []
  | JStr s => Normal (chars s)
  | JArr items => Normal items
  | JObj fields => Normal (fields.*2)
  end.

(** ** Component state *)

(** The two directions [handleSort] sets, and the three column keys the
    table headers pass to it; each key is a non-empty string. *)
Inductive Direction : Type := asc | desc.

Inductive SortKey : Type := timestamp | incident_type | user_id.

(** The property name a sort key stands for. *)
Definition key_name (k : SortKey) : string :=
  match k with
  | timestamp => "timestamp"
  | incident_type => "incident_type"
  | user_id => "user_id"
  end.

Record SortConfig : Type := {
  key : SortKey;
  direction : Direction
}.

#[global] Instance Direction_eq_dec : EqDecision Direction.
Proof. solve_decision. Defined.
#[global] Instance SortKey_eq_dec : EqDecision SortKey.
Proof. solve_decision. Defined.

(** An incident is an object: its properties by name. *)
Abbreviation Incident := (gmap string JsVal).

(** The outcome of the request [axios.get] made. *)
Inductive Response : Type :=
  | Resolved (data : JsVal)
  | Rejected (err : JsVal).

(** The three severity classes of a row. *)
Inductive Severity : Type := high | medium | low.

Definition severity_name (s : Severity) : string :=
  match s with high => "high" | medium => "medium" | low => "low" end.

(** The address [handleInvestigate] opens, in both variants, for an id
    that is a string (the template literal leaves a string as it is). *)
Definition kibanaUrl (incidentId : string) : string :=
  "http://localhost:5601/app/discover#/?_a=(query:(language:kuery,query:'incident_id:"
    +:+ incidentId +:+ "'))".

(** ** [Array.prototype.sort]

    The comparison function returns a number; [NaN] is [None].  The sort
    reads the function through [SortCompare], which turns [NaN] into
    zero, and moves [b] before [a] only when the comparison of [a] with
    [b] is positive.  ECMAScript requires the sort to be stable, which
    fixes the result whenever [SortCompare] is consistent on the elements
    (otherwise the order is left to the engine); it is embedded as the
    stable insertion sort, and the theorems below use it on such elements
    only. *)
Definition comes_after (v : option Z) : bool :=
  match v with
  | Some z => (0 <? z)%Z
  | None => false
  end.

Fixpoint js_insert {A : Type} (cmp : A → A → option Z) (x : A) (sorted : list A)
    : list A :=
  match sorted with
  | [] => [x]
  | y :: rest =>
      if comes_after (cmp x y) then y :: js_insert cmp x rest else x :: sorted
  end.

Definition js_sort {A : Type} (cmp : A → A → option Z) (l : list A) : list A :=
  foldr (js_insert cmp) [] l.

(** The same sort for a comparison function that can throw. *)
Fixpoint js_insertM {A : Type} (cmp : A → A → Completion (option Z)) (x : A)
    (sorted : list A) : Completion (list A) :=
  match sorted with
  | [] => Normal [x]
  | y :: rest =>
      v ← cmp x y;
      if comes_after v then
        rest' ← js_insertM cmp x rest; Normal (y :: rest')
      else Normal (x :: sorted)
  end.

Fixpoint js_sortM {A : Type} (cmp : A → A → Completion (option Z)) (l : list A)
    : Completion (list A) :=
  match l with
  | [] => Normal []
  | x :: rest => sorted ← js_sortM cmp rest; js_insertM cmp x sorted
  end.

(** [dateA - dateB] on time values.  The difference of two time values is
    computed in floating point, where it keeps the sign of the exact one. *)
Definition time_sub (a b : option Z) : option Z :=
  match a, b with
  | Some x, Some y => Some (x - y)%Z
  | _, _ => None
  end.

(** [dateA < dateB] on time values: false when either is [NaN]. *)
Definition time_lt (a b : option Z) : bool :=
  match a, b with
  | Some x, Some y => (x <? y)%Z
  | _, _ => false
  end.

(** ** The component that normalises the payload

    The variant that requests [http://localhost:8000/api/incidents] and
    accepts several shapes of payload. *)
Module IncidentList.

(** The state of the component.  [incidents] holds the records of the last
    successful poll.  [selectedIncidents] is a [Set] of ids, of which the
    component reads membership and size only; ids are compared by
    [SameValueZero], which on the primitive values of JSON is equality. *)
Record Store : Type := {
  incidents : list Incident;
  loading : bool;
  error : JsVal;
  selectedIncidents : gset JsVal;
  sortConfig : SortConfig
}.

(** State on mount. *)
Definition initial : Store :=
  {| incidents := [];
     loading := true;
     error := JNull;
     selectedIncidents := ∅;
     sortConfig := {| key := timestamp; direction := desc |} |}.

Definition setIncidents (l : list Incident) (st : Store) : Store :=
  {| incidents := l; loading := loading st; error := error st;
     selectedIncidents := selectedIncidents st; sortConfig := sortConfig st |}.

Definition setLoading (b : bool) (st : Store) : Store :=
  {| incidents := incidents st; loading := b; error := error st;
     selectedIncidents := selectedIncidents st; sortConfig := sortConfig st |}.

Definition setError (e : JsVal) (st : Store) : Store :=
  {| incidents := incidents st; loading := loading st; error := e;
     selectedIncidents := selectedIncidents st; sortConfig := sortConfig st |}.

Definition setSelectedIncidents (s : gset JsVal) (st : Store) : Store :=
  {| incidents := incidents st; loading := loading st; error := error st;
     selectedIncidents := s; sortConfig := sortConfig st |}.

Definition setSortConfig (c : SortConfig) (st : Store) : Store :=
  {| incidents := incidents st; loading := loading st; error := error st;
     selectedIncidents := selectedIncidents st; sortConfig := c |}.

Section with_runtime.
Context `{Runtime}.

(** The elements of an array. *)
Definition items (v : JsVal) : list JsVal :=
  match v with JArr l => l | _ => [] end.

(** The array of raw entries found in the payload [response.data]. *)
Definition incidentsData (data : JsVal) : Completion (list JsVal) :=
  if Array_isArray data then Normal (items data)
  else
    i ← js_get data "incidents";
    if truthy i && Array_isArray i then Normal (items i)
    else
      d ← js_get data "data";
      if truthy d && Array_isArray d then Normal (items d)
      else
        r ← js_get data "results";
        if truthy r && Array_isArray r then Normal (items r)
        else Object_values data.

(** The six properties the object literal sets before the spread, computed
    from the properties [p] of the entry. *)
Definition canonical (ent : Entropy) (i : nat) (p : gmap string JsVal)
    : gmap string JsVal :=
  list_to_map
    [ ("id", prop p "id" <||> prop p "_id" <||> JStr (random_id ent i));
      ("timestamp",
        prop p "timestamp" <||> prop p "date" <||> prop p "created_at"
          <||> JStr (now_iso ent i));
      ("incident_type",
        prop p "incident_type" <||> prop p "type" <||> prop p "category"
          <||> JStr "Unknown");
      ("user_id",
        prop p "user_id" <||> prop p "user" <||> prop p "employee_id"
          <||> JStr "N/A");
      ("platform",
        prop p "platform" <||> prop p "source" <||> prop p "channel"
          <||> JStr "Unknown");
      ("action", prop p "action" <||> prop p "response" <||> JStr "NOTIFY") ].

(** The object literal: the six properties, then [...incident], whose
    properties replace those of the same name. *)
Definition formatProps (ent : Entropy) (i : nat) (p : gmap string JsVal)
    : Incident :=
  p ∪ canonical ent i p.

(** The function mapped over the entries; the first read, [incident.id],
    throws on [null]. *)
Definition formatIncident (ent : Entropy) (i : nat) (incident : JsVal)
    : Completion Incident :=
  match own_props incident with
  | Some p => Normal (formatProps ent i p)
  | None => Throw (TypeError incident "id")
  end.

(** [incidentsData.map(...)], from index [i] on. *)
Fixpoint formattedIncidents (ent : Entropy) (i : nat) (entries : list JsVal)
    : Completion (list Incident) :=
  match entries with
  | [] => Normal []
  | incident :: rest =>
      r ← formatIncident ent i incident;
      rs ← formattedIncidents ent (S i) rest;
      Normal (r :: rs)
  end.

(** Normalisation of a payload: extraction of the entries, then the map. *)
Definition normalize (ent : Entropy) (data : JsVal) : Completion (list Incident) :=
  entries ← incidentsData data;
  formattedIncidents ent 0 entries.

(** The [try] block after the request resolved. *)
Definition fetched (ent : Entropy) (data : JsVal) (st : Store) : Completion Store :=
  formatted ← normalize ent data;
  Normal (setError JNull (setIncidents formatted st)).

(** The [catch] block. *)
Definition caught (err : JsVal) (st : Store) : Completion Store :=
  r ← js_get err "response";
  m ← js_get err "message";
  Normal (setError
            (opt_get (opt_get r "data") "message" <||> m
               <||> JStr "Ошибка загрузки данных") st).

Definition fetchIncidents (ent : Entropy) (resp : Response) (st : Store) : Store :=
  let attempt :=
    match resp with
    | Resolved data => fetched ent data st
    | Rejected err => Throw err
    end in
  let after :=
    match attempt with
    | Normal st' => st'
    | Throw err =>
        match caught err st with
        | Normal st' => st'
        | Throw _ => st
        end
    end in
  setLoading false after.

Definition handleSort (k : SortKey) (st : Store) : Store :=
  let direction :=
    if decide (key (sortConfig st) = k ∧ direction (sortConfig st) = asc)
    then desc else asc in
  setSortConfig {| key := k; direction := direction |} st.

(** The comparison function given to [sort]; [a > b] is [b < a]. *)
Definition compare (cfg : SortConfig) (a b : Incident) : option Z :=
  let aValue := prop a (key_name (key cfg)) in
  let bValue := prop b (key_name (key cfg)) in
  let aValue := if nullish aValue then JStr "" else aValue in
  let bValue := if nullish bValue then JStr "" else bValue in
  match key cfg with
  | timestamp =>
      let dateA := Date_time aValue in
      let dateB := Date_time bValue in
      match direction cfg with
      | asc => time_sub dateA dateB
      | desc => time_sub dateB dateA
      end
  | _ =>
      match aValue, bValue with
      | JStr sa, JStr sb =>
          match direction cfg with
          | asc => Some (localeCompare sa sb)
          | desc => Some (localeCompare sb sa)
          end
      | _, _ =>
          match direction cfg with
          | asc =>
              Some (if js_lt aValue bValue then -1
                    else if js_lt bValue aValue then 1 else 0)%Z
          | desc =>
              Some (if js_lt bValue aValue then -1
                    else if js_lt aValue bValue then 1 else 0)%Z
          end
      end
  end.

(** The memoised view: a sorted copy of [incidents].  Every sort key is
    truthy, which leaves the test on the length. *)
Definition sortedIncidents (st : Store) : list Incident :=
  let sortableIncidents := incidents st in
  if bool_decide (0 < length sortableIncidents)%nat
  then js_sort (compare (sortConfig st)) sortableIncidents
  else sortableIncidents.

Definition toggleIncidentSelection (id : JsVal) (st : Store) : Store :=
  let newSelected := selectedIncidents st in
  let newSelected :=
    if decide (id ∈ newSelected) then newSelected ∖ {[ id ]}
    else newSelected ∪ {[ id ]} in
  setSelectedIncidents newSelected st.

Definition toggleSelectAll (st : Store) : Store :=
  if bool_decide (size (selectedIncidents st) = length (incidents st))
     && bool_decide (0 < length (incidents st))%nat
  then setSelectedIncidents ∅ st
  else setSelectedIncidents (list_to_set ((λ inc, prop inc "id") <$> incidents st)) st.


(** *** What the component renders *)

(** The table screen: the two counts of the header, the refresh button,
    the banner shown for a truthy [error], the checkbox of the header, the
    rows of the sorted view each with its checkbox (when there is no row,
    the text of the empty state), and the indicator under the table. *)
Record TableView : Type := {
  count_total : nat;
  count_selected : nat;
  refresh_disabled : bool;
  error_banner : option JsVal;
  select_all_checked : bool;
  select_all_disabled : bool;
  rows : list (Incident * bool);
  empty_state : option string;
  updating_indicator : bool
}.

Inductive Screen : Type :=
  | LoadingSpinner
  | ErrorMessage (message : JsVal)
  | IncidentTable (t : TableView).

Definition render (st : Store) : Screen :=
  if loading st && bool_decide (length (incidents st) = 0%nat) then LoadingSpinner
  else if truthy (error st) && bool_decide (length (incidents st) = 0%nat)
  then ErrorMessage (error st)
  else
    IncidentTable
      {| count_total := length (incidents st);
         count_selected := size (selectedIncidents st);
         refresh_disabled := loading st;
         error_banner := if truthy (error st) then Some (error st) else None;
         select_all_checked :=
           bool_decide (0 < length (incidents st))%nat
           && bool_decide (size (selectedIncidents st) = length (incidents st));
         select_all_disabled := bool_decide (length (incidents st) = 0%nat);
         rows :=
           (λ incident,
              (incident, bool_decide (prop incident "id" ∈ selectedIncidents st)))
             <$> sortedIncidents st;
         empty_state :=
           if bool_decide (length (sortedIncidents st) = 0%nat)
           then Some (if loading st then "Загрузка..." else "Инциденты не найдены")
           else None;
         updating_indicator :=
           loading st && bool_decide (0 < length (incidents st))%nat |}.

(** *** What happens to the component

    A request made on mount, by the timer or by a button completes; a
    header, a row checkbox or the header checkbox is clicked. *)
Inductive Event : Type :=
  | PollCompleted (ent : Entropy) (resp : Response)
  | SortClicked (k : SortKey)
  | RowToggled (id : JsVal)
  | SelectAllToggled.

Definition step (st : Store) (e : Event) : Store :=
  match e with
  | PollCompleted ent resp => fetchIncidents ent resp st
  | SortClicked k => handleSort k st
  | RowToggled id => toggleIncidentSelection id st
  | SelectAllToggled => toggleSelectAll st
  end.

(** The state after the events, in order. *)
Definition run (st : Store) (events : list Event) : Store :=
  foldl step st events.

End with_runtime.
End IncidentList.

(** ** The component that trusts the payload

    The variant that requests [/api/v1/incidents] and stores
    [response.data.incidents] as it is. *)
Module IncidentListV1.

(** The state of the component; [incidents] holds whatever the payload
    carried under incidents. *)
Record Store : Type := {
  incidents : JsVal;
  loading : bool;
  error : JsVal;
  selectedIncidents : gset JsVal;
  sortConfig : SortConfig
}.

(** State on mount. *)
Definition initial : Store :=
  {| incidents := JArr [];
     loading := true;
     error := JNull;
     selectedIncidents := ∅;
     sortConfig := {| key := timestamp; direction := desc |} |}.

Definition setIncidents (v : JsVal) (st : Store) : Store :=
  {| incidents := v; loading := loading st; error := error st;
     selectedIncidents := selectedIncidents st; sortConfig := sortConfig st |}.

Definition setLoading (b : bool) (st : Store) : Store :=
  {| incidents := incidents st; loading := b; error := error st;
     selectedIncidents := selectedIncidents st; sortConfig := sortConfig st |}.

Definition setError (e : JsVal) (st : Store) : Store :=
  {| incidents := incidents st; loading := loading st; error := e;
     selectedIncidents := selectedIncidents st; sortConfig := sortConfig st |}.

Definition setSelectedIncidents (s : gset JsVal) (st : Store) : Store :=
  {| incidents := incidents st; loading := loading st; error := error st;
     selectedIncidents := s; sortConfig := sortConfig st |}.

Definition setSortConfig (c : SortConfig) (st : Store) : Store :=
  {| incidents := incidents st; loading := loading st; error := error st;
     selectedIncidents := selectedIncidents st; sortConfig := c |}.

Section with_runtime.
Context `{Runtime}.

(** The [try] block after the request resolved. *)
Definition fetched (data : JsVal) (st : Store) : Completion Store :=
  i ← js_get data "incidents";
  Normal (setError JNull (setIncidents (i <||> JArr []) st)).

(** The [catch] block. *)
Definition caught (err : JsVal) (st : Store) : Completion Store :=
  m ← js_get err "message";
  Normal (setError m st).

Definition fetchIncidents (resp : Response) (st : Store) : Store :=
  let attempt :=
    match resp with
    | Resolved data => fetched data st
    | Rejected err => Throw err
    end in
  let after :=
    match attempt with
    | Normal st' => st'
    | Throw err =>
        match caught err st with
        | Normal st' => st'
        | Throw _ => st
        end
    end in
  setLoading false after.

Definition handleSort (k : SortKey) (st : Store) : Store :=
  let direction :=
    if decide (key (sortConfig st) = k ∧ direction (sortConfig st) = asc)
    then desc else asc in
  setSortConfig {| key := k; direction := direction |} st.

(** [[...v]]: the elements of an array, the units of a string; any other
    JSON value is not iterable. *)
Definition spread_items (v : JsVal) : Completion (list JsVal) :=
  match v with
  | JArr l => Normal l
  | JStr s => Normal (chars s)
  | _ => Throw (TypeError v "Symbol.iterator")
  end.

(** The comparison function given to [sort]; the elements are the raw
    entries, and for the timestamp key both values are turned into dates
    before they are compared. *)
Definition compare (cfg : SortConfig) (a b : JsVal) : Completion (option Z) :=
  aValue ← js_get a (key_name (key cfg));
  bValue ← js_get b (key_name (key cfg));
  let less :=
    match key cfg with
    | timestamp => time_lt (Date_time aValue) (Date_time bValue)
    | _ => js_lt aValue bValue
    end in
  let greater :=
    match key cfg with
    | timestamp => time_lt (Date_time bValue) (Date_time aValue)
    | _ => js_lt bValue aValue
    end in
  if less then
    Normal (Some (match direction cfg with asc => -1 | desc => 1 end)%Z)
  else if greater then
    Normal (Some (match direction cfg with asc => 1 | desc => -1 end)%Z)
  else Normal (Some 0%Z).

(** The memoised view; every sort key is truthy. *)
Definition sortedIncidents (st : Store) : Completion (list JsVal) :=
  sortableIncidents ← spread_items (incidents st);
  js_sortM (compare (sortConfig st)) sortableIncidents.

Definition toggleIncidentSelection (id : JsVal) (st : Store) : Store :=
  let newSelected := selectedIncidents st in
  let newSelected :=
    if decide (id ∈ newSelected) then newSelected ∖ {[ id ]}
    else newSelected ∪ {[ id ]} in
  setSelectedIncidents newSelected st.

(** [v.length]. *)
Definition js_length (v : JsVal) : Completion JsVal :=
  match v with
  | JArr l => Normal (JNum (Z.of_nat (length l)))
  | JStr s => Normal (JNum (Z.of_nat (String.length s)))
  | _ => js_get v "length"
  end.

(** [inc.id] for each element, in order. *)
Fixpoint ids_of (l : list JsVal) : Completion (list JsVal) :=
  match l with
  | [] => Normal []
  | inc :: rest =>
      id ← js_get inc "id";
      ids ← ids_of rest;
      Normal (id :: ids)
  end.

(** [v.map(inc => inc.id)]: only an array has [map]. *)
Definition map_ids (v : JsVal) : Completion (list JsVal) :=
  match v with
  | JArr l => ids_of l
  | _ => Throw (TypeError v "map")
  end.

(** The handler; when it throws, no state is set. *)
Definition toggleSelectAll (st : Store) : Store :=
  let result :=
    n ← js_length (incidents st);
    if bool_decide (JNum (Z.of_nat (size (selectedIncidents st))) = n)
    then Normal (setSelectedIncidents ∅ st)
    else
      ids ← map_ids (incidents st);
      Normal (setSelectedIncidents (list_to_set ids) st) in
  match result with
  | Normal st' => st'
  | Throw _ => st
  end.


(** [v.includes(needle)]: a search in a string, membership in an array;
    no other JSON value has the method. *)
Definition js_includes (v : JsVal) (needle : string) : Completion bool :=
  match v with
  | JStr s => Normal (String_includes s needle)
  | JArr l => Normal (bool_decide (JStr needle ∈ l))
  | _ => Throw (TypeError v "includes")
  end.

Definition getSeverityClass (incidentType : JsVal) : Completion Severity :=
  a ← js_includes incidentType "ИНН";
  b ← (if a : bool then Normal true else js_includes incidentType "СНИЛС");
  c ← (if b : bool then Normal true
       else js_includes incidentType "Банковская карта");
  if c : bool then Normal high
  else
    (d ← js_includes incidentType "Email";
     e ← (if d : bool then Normal true else js_includes incidentType "Телефон");
     if e : bool then Normal medium else Normal low).

(** The severity in the class of a row: [getSeverityClass] of the
    incident_type of the entry. *)
Definition row_severity (incident : JsVal) : Completion Severity :=
  t ← js_get incident "incident_type";
  getSeverityClass t.

End with_runtime.
End IncidentListV1.

(** ** A reference runtime

    An instance of the runtime on which the examples are evaluated.  Its
    date parser reads the ECMAScript date-time format in the form
    [YYYY-MM-DDTHH:mm:ssZ] and rejects every other string, and it takes
    arrays and objects for invalid dates; the examples use timestamps of
    that form and strings that no engine reads as a date.  The theorems
    hold for every runtime. *)
Module Reference.

Definition digit (c : Ascii.ascii) : option Z :=
  let n := Z.of_nat (Ascii.nat_of_ascii c) in
  if bool_decide (48 ≤ n ≤ 57)%Z then Some (n - 48)%Z else None.

Fixpoint number (acc : Z) (cs : list Ascii.ascii) : option Z :=
  match cs with
  | [] => Some acc
  | c :: rest => d ← digit c; number (10 * acc + d)%Z rest
  end.

Definition leap (y : Z) : bool :=
  ((y mod 4 =? 0) && negb (y mod 100 =? 0) || (y mod 400 =? 0))%Z.

Definition days_in_month (y m : Z) : Z :=
  if (m =? 2)%Z then (if leap y then 29 else 28)%Z
  else if ((m =? 4) || (m =? 6) || (m =? 9) || (m =? 11))%Z then 30%Z
  else 31%Z.

(** Days from 1970-01-01 to the given civil date. *)
Definition days_from_civil (y m d : Z) : Z :=
  let y' := (if (m <=? 2)%Z then y - 1 else y)%Z in
  let era := (y' / 400)%Z in
  let yoe := (y' - era * 400)%Z in
  let mp := (if (m <=? 2)%Z then m + 9 else m - 3)%Z in
  let doy := ((153 * mp + 2) / 5 + d - 1)%Z in
  let doe := (yoe * 365 + yoe / 4 - yoe / 100 + doy)%Z in
  (era * 146097 + doe - 719468)%Z.

Definition is_char (c : Ascii.ascii) (s : string) : bool :=
  String.eqb (String c "") s.

Definition iso_time (s : string) : option Z :=
  match String.list_ascii_of_string s with
  | [y1; y2; y3; y4; c1; m1; m2; c2; d1; d2; t;
     h1; h2; c3; n1; n2; c4; s1; s2; z] =>
      if is_char c1 "-" && is_char c2 "-" && is_char t "T"
         && is_char c3 ":" && is_char c4 ":" && is_char z "Z"
      then
        y ← number 0 [y1; y2; y3; y4];
        m ← number 0 [m1; m2];
        d ← number 0 [d1; d2];
        h ← number 0 [h1; h2];
        n ← number 0 [n1; n2];
        sec ← number 0 [s1; s2];
        if bool_decide (1 ≤ m ≤ 12 ∧ 1 ≤ d ≤ days_in_month y m
                        ∧ h ≤ 23 ∧ n ≤ 59 ∧ sec ≤ 59)%Z
        then Some ((((days_from_civil y m d * 24 + h) * 60 + n) * 60 + sec) * 1000)%Z
        else None
      else None
  | _ => None
  end.

Definition date_time (v : JsVal) : option Z :=
  match v with
  | JStr s => iso_time s
  | JNum n => if bool_decide (Z.abs n ≤ 8640000000000000)%Z then Some n else None
  | JBool b => Some (if b then 1 else 0)%Z
  | JNull => Some 0%Z
  | _ => None
  end.

Definition sign_of (c : comparison) : Z :=
  match c with Lt => (-1)%Z | Eq => 0%Z | Gt => 1%Z end.

Definition type_error_message (v : JsVal) (k : string) : string :=
  "Cannot read properties of "
    ++ (match v with JNull => "null" | _ => "undefined" end)
    ++ " (reading '" ++ k ++ "')".

Definition less_than (a b : JsVal) : bool :=
  match a, b with
  | JNum x, JNum y => (x <? y)%Z
  | JStr x, JStr y => bool_decide (String.compare x y = Lt)
  | _, _ => false
  end.

Definition runtime : Runtime := {|
  TypeError_message := type_error_message;
  Date_time := date_time;
  localeCompare := λ a b, sign_of (String.compare a b);
  js_lt := less_than
|}.

Definition entropy : Entropy := {|
  random_id := λ i, "k3x9" ++ pretty i;
  now_iso := λ _, "2025-06-01T12:00:00.000Z"
|}.

End Reference.

(** ** Sample payloads and states

    States of the normalising component reached from the state on mount,
    on the reference runtime. *)
Module Sample.
Import Reference.
#[local] Existing Instance Reference.runtime.

(** Two entries; the timestamp of the second is not a date. *)
Definition two_entries : JsVal :=
  JArr [ JObj [("id", JNum 1); ("timestamp", JStr "2024-01-01T00:00:00Z")];
         JObj [("id", JNum 2); ("timestamp", JStr "not a date")] ].

(** Two entries with parsable and distinct timestamps. *)
Definition two_dated : JsVal :=
  JArr [ JObj [("id", JNum 1); ("timestamp", JStr "2024-01-01T00:00:00Z")];
         JObj [("id", JNum 2); ("timestamp", JStr "2024-03-05T10:30:00Z")] ].

(** Eight entries under the incidents wrapper. *)
Definition eight_entries : JsVal :=
  JObj [("incidents",
         JArr ((λ n, JObj [("id", JNum n); ("type", JStr "Email")])
                 <$> [1; 2; 3; 4; 5; 6; 7; 8]%Z))].

(** The error of a request that did not reach the server. *)
Definition network_error : JsVal := JObj [("message", JStr "Network Error")].

(** The state after the first poll returned [data]. *)
Definition loaded (data : JsVal) : IncidentList.Store :=
  IncidentList.fetchIncidents entropy (Resolved data) IncidentList.initial.

End Sample.

(** ** Terms of the specification *)

(** The canonical property names with their alternate upstream names and
    their defaults, for the four properties that default to a constant. *)
Definition defaulted : list (string * (list string * string)) :=
  [ ("incident_type", (["type"; "category"], "Unknown"));
    ("user_id", (["user"; "employee_id"], "N/A"));
    ("platform", (["source"; "channel"], "Unknown"));
    ("action", (["response"], "NOTIFY")) ].

(** The first truthy value among the candidates, else the default. *)
Definition first_populated (p : gmap string JsVal) (names : list string)
    (d : JsVal) : JsVal :=
  foldr (λ k rest, prop p k <||> rest) d names.

(** The wrapper names probed in the payload, in this order. *)
Definition wrapper_keys : list string := ["incidents"; "data"; "results"].

(** An object none of whose wrapper properties holds an array. *)
Definition no_wrapper (fields : list (string * JsVal)) : bool :=
  forallb (λ k, negb (Array_isArray (prop (list_to_map fields) k))) wrapper_keys.

(** A payload with nothing in it. *)
Definition empty_payload (data : JsVal) : bool :=
  match data with
  | JArr [] | JObj [] | JStr "" | JBool _ | JNum _ => true
  | _ => false
  end.

(** The ids of the incidents in the list, in list order. *)
Definition ids (l : list Incident) : list JsVal := (λ inc, prop inc "id") <$> l.

(** The time value of the timestamp of an incident, as the comparison
    function of the normalising component computes it. *)
Definition timestamp_time `{Runtime} (a : Incident) : option Z :=
  let v := prop a "timestamp" in
  Date_time (if nullish v then JStr "" else v).

(** The integer the timestamp comparison orders by, for an incident whose
    timestamp is parsable. *)
Definition time_key `{Runtime} (a : Incident) : Z :=
  default 0%Z (timestamp_time a).

(** The store with the sort set to the timestamp key in direction [d]. *)
Definition by_timestamp (d : Direction) (st : IncidentList.Store)
    : IncidentList.Store :=
  IncidentList.setSortConfig {| key := timestamp; direction := d |} st.

(** The string [s] holds one of the words, somewhere. *)
Definition mentions (s : string) (words : list string) : Prop :=
  ∃ word pre post, word ∈ words ∧ s = pre +:+ word +:+ post.

(** The words of the two upper severities, in the variant that stores the
    payload as it is. *)
Definition high_words : list string := ["ИНН"; "СНИЛС"; "Банковская карта"].
Definition medium_words : list string := ["Email"; "Телефон"].

(** While the loading flag is on, the list is empty and no error is
    set. *)
Definition mounted (st : IncidentList.Store) : Prop :=
  IncidentList.loading st = true →
  IncidentList.incidents st = [] ∧ IncidentList.error st = JNull.


(** * Properties *)

(** ** Normalisation of one entry *)

Section normalisation.
Context `{Runtime}.
Import IncidentList.

Ltac lookup_literal :=
  cbn [list_to_map foldr fst snd];
  repeat (rewrite lookup_insert_ne by (intros ?; discriminate));
  first [rewrite lookup_insert_eq | rewrite lookup_empty].

Lemma canonical_defaulted ent i p f alts d :
  (f, (alts, d)) ∈ defaulted →
  canonical ent i p !! f = Some (first_populated p (f :: alts) (JStr d)).
Proof.
  unfold defaulted. rewrite !elem_of_cons, elem_of_nil.
  intros [E | [E | [E | [E | []]]]]; simplify_eq;
    unfold canonical; lookup_literal; reflexivity.
Qed.

Lemma canonical_dom ent i p :
  dom (canonical ent i p)
  = ({[ "id"; "timestamp"; "incident_type"; "user_id"; "platform"; "action" ]}
      : gset string).
Proof.
  unfold canonical. rewrite dom_list_to_map_L. cbn [fmap list_fmap fst].
  cbn [list_to_set foldr]. set_solver.
Qed.

Lemma formatProps_lookup ent i p k :
  formatProps ent i p !! k
  = match p !! k with Some v => Some v | None => canonical ent i p !! k end.
Proof.
  unfold formatProps. rewrite lookup_union.
  destruct (p !! k), (canonical ent i p !! k); reflexivity.
Qed.

Lemma formatProps_dom ent i p :
  dom (canonical ent i p) ⊆ dom (formatProps ent i p).
Proof. unfold formatProps. rewrite dom_union_L. apply union_subseteq_r. Qed.

Lemma formatProps_absorbs ent i ent' i' p :
  formatProps ent' i' (formatProps ent i p) = formatProps ent i p.
Proof.
  apply map_eq. intros k. rewrite (formatProps_lookup ent' i').
  destruct (formatProps ent i p !! k) as [v |] eqn:E; [reflexivity |].
  apply not_elem_of_dom. apply not_elem_of_dom in E.
  intros Hk. apply E, (formatProps_dom ent i p).
  rewrite canonical_dom in *. exact Hk.
Qed.

Lemma first_populated_falsy p names d :
  Forall (λ k, truthy (prop p k) = false) names →
  first_populated p names d = d.
Proof.
  induction 1 as [| k names Hk _ IH]; simpl; [reflexivity |].
  unfold js_or at 1. rewrite Hk. exact IH.
Qed.

Lemma formatIncident_Normal ent i e r :
  formatIncident ent i e = Normal r ↔
  ∃ p, own_props e = Some p ∧ r = formatProps ent i p.
Proof.
  unfold formatIncident. destruct (own_props e) as [p |].
  - split; [intros [= <-]; eauto | intros (p' & [= <-] & ->); reflexivity].
  - split; [discriminate | intros (p' & [=] & _)].
Qed.

(** C1 (as amended).  Every record that normalisation produces has the
    four properties incident_type, user_id, platform and action set; when
    the entry has no property of the canonical name and none of the
    alternate names is populated, the property holds its default string;
    and a populated upstream value of the canonical name is kept as it is,
    whatever its type. *)
Theorem C1_canonical_fields_present ent i e r f alts d :
  formatIncident ent i e = Normal r →
  (f, (alts, d)) ∈ defaulted →
  is_Some (r !! f)
  ∧ (∀ p, own_props e = Some p → p !! f = None →
       Forall (λ k, truthy (prop p k) = false) alts →
       r !! f = Some (JStr d))
  ∧ (∀ p v, own_props e = Some p → p !! f = Some v → truthy v = true →
       r !! f = Some v).
Proof.
  intros (p & Hp & ->)%formatIncident_Normal Hf.
  pose proof (canonical_defaulted ent i p f alts d Hf) as Hc.
  split; [| split].
  - rewrite formatProps_lookup, Hc. destruct (p !! f); eauto.
  - intros p' Hp' Hnone Halts. rewrite Hp in Hp'. simplify_eq.
    rewrite formatProps_lookup, Hnone, Hc. f_equal.
    apply first_populated_falsy. constructor; [| exact Halts].
    unfold prop. rewrite Hnone. reflexivity.
  - intros p' v Hp' Hv _. rewrite Hp in Hp'. simplify_eq.
    rewrite formatProps_lookup, Hv. reflexivity.
Qed.

(** C8.  The field-resolution map applied to a record it produced gives
    the record back, whatever the clock and the random generator yield
    the second time; so does the mapped function on any value whose
    properties are those of the record. *)
Theorem C8_normalisation_idempotent ent i ent' i' :
  (∀ p, formatProps ent' i' (formatProps ent i p) = formatProps ent i p)
  ∧ (∀ e r v, formatIncident ent i e = Normal r → own_props v = Some r →
       formatIncident ent' i' v = Normal r).
Proof.
  split.
  - intros p. apply formatProps_absorbs.
  - intros e r v (p & _ & ->)%formatIncident_Normal Hv.
    unfold formatIncident. rewrite Hv. f_equal. apply formatProps_absorbs.
Qed.

End normalisation.

(** ** Normalisation of a payload *)

Section payloads.
Context `{Runtime}.
Import IncidentList.

Lemma own_props_nullish v : nullish v = false → is_Some (own_props v).
Proof. destruct v; simpl; intros; by eauto. Qed.

Lemma js_get_object fields k :
  js_get (JObj fields) k = Normal (prop (list_to_map fields) k).
Proof. reflexivity. Qed.

Lemma not_array_probe v : Array_isArray v = false → truthy v && Array_isArray v = false.
Proof. intros ->. apply andb_false_r. Qed.

Lemma incidentsData_array entries : incidentsData (JArr entries) = Normal entries.
Proof. reflexivity. Qed.

Lemma incidentsData_no_wrapper fields :
  no_wrapper fields = true → incidentsData (JObj fields) = Normal (fields.*2).
Proof.
  unfold no_wrapper, wrapper_keys. cbn [forallb].
  rewrite !andb_true_iff, !negb_true_iff. intros (Hi & Hd & Hr & _).
  unfold incidentsData. cbn [Array_isArray]. rewrite !js_get_object.
  cbn [mbind Completion_bind].
  rewrite (not_array_probe _ Hi), (not_array_probe _ Hd), (not_array_probe _ Hr).
  reflexivity.
Qed.

Lemma incidentsData_total data :
  nullish data = false → ∃ entries, incidentsData data = Normal entries.
Proof.
  intros Hdata. unfold incidentsData.
  destruct (Array_isArray data); [eauto |].
  unfold js_get. destruct (own_props_nullish data Hdata) as [p ->].
  cbn [mbind Completion_bind].
  repeat (match goal with
          | |- context [if ?b then _ else _] => destruct b; [eauto |]
          end).
  destruct data; simpl in *; try discriminate; eauto.
Qed.

Lemma formattedIncidents_total ent i entries :
  Forall (λ e, nullish e = false) entries →
  ∃ incs, formattedIncidents ent i entries = Normal incs
          ∧ length incs = length entries.
Proof.
  intros Hall. revert i.
  induction Hall as [| e entries He _ IH]; intros i; simpl.
  - exists []. split; reflexivity.
  - unfold formatIncident. destruct (own_props_nullish e He) as [p ->].
    destruct (IH (S i)) as (incs & -> & Hlen).
    eexists. split; [reflexivity |]. simpl. by rewrite Hlen.
Qed.

(** The example of the specification: the payload
    [{results:[{_id:7, date:"2024-01-01T00:00:00Z"}]}]. *)
Lemma normalize_results_example ent :
  ∃ r,
    normalize ent
      (JObj [("results",
              JArr [JObj [("_id", JNum 7);
                          ("date", JStr "2024-01-01T00:00:00Z")]])])
    = Normal [r]
    ∧ r !! "id" = Some (JNum 7)
    ∧ r !! "timestamp" = Some (JStr "2024-01-01T00:00:00Z")
    ∧ r !! "incident_type" = Some (JStr "Unknown")
    ∧ r !! "user_id" = Some (JStr "N/A")
    ∧ r !! "platform" = Some (JStr "Unknown")
    ∧ r !! "action" = Some (JStr "NOTIFY").
Proof.
  exists (formatProps ent 0
            (list_to_map [("_id", JNum 7); ("date", JStr "2024-01-01T00:00:00Z")])).
  repeat split; reflexivity.
Qed.

(** A [null] payload and a [null] entry make normalisation throw; the
    [catch] block of [fetchIncidents] then records the message. *)
Lemma normalize_null_throws ent :
  normalize ent JNull = Throw (TypeError JNull "incidents")
  ∧ normalize ent (JArr [JNull]) = Throw (TypeError JNull "id").
Proof. split; reflexivity. Qed.

(** C2 (at the failing input).  The entry
    [{incident_type: "", type: "Email"}] has "Email" as the first
    populated candidate for incident_type, and the six computed
    properties hold it; the spread then puts the empty string of the
    entry back, so the record holds the empty string. *)
Theorem C2_spread_replaces_first_populated ent :
  let p : gmap string JsVal :=
    list_to_map [("incident_type", JStr ""); ("type", JStr "Email")] in
  first_populated p ["incident_type"; "type"; "category"] (JStr "Unknown")
    = JStr "Email"
  ∧ canonical ent 0 p !! "incident_type" = Some (JStr "Email")
  ∧ ∃ r,
      normalize ent
        (JObj [("results",
                JArr [JObj [("incident_type", JStr ""); ("type", JStr "Email")]])])
      = Normal [r]
      ∧ r !! "incident_type" = Some (JStr "").
Proof.
  intros p. split; [reflexivity | split; [reflexivity |]].
  exists (formatProps ent 0 p). split; reflexivity.
Qed.

(** C3 (as amended).  The bare array of entries and the objects wrapping
    it as incidents, data or results normalise to the same result, and so
    does every object whose values are the entries, provided none of its
    properties incidents, data and results holds an array. *)
Theorem C3_payload_shapes_agree ent entries :
  normalize ent (JObj [("incidents", JArr entries)]) = normalize ent (JArr entries)
  ∧ normalize ent (JObj [("data", JArr entries)]) = normalize ent (JArr entries)
  ∧ normalize ent (JObj [("results", JArr entries)]) = normalize ent (JArr entries)
  ∧ ∀ fields, fields.*2 = entries → no_wrapper fields = true →
      normalize ent (JObj fields) = normalize ent (JArr entries).
Proof.
  repeat split; try reflexivity.
  intros fields <- Hfields. unfold normalize.
  by rewrite incidentsData_no_wrapper, incidentsData_array.
Qed.

(** C4 (as amended).  On a payload other than [null], extraction of the
    entries returns, and when no entry is [null] normalisation returns one
    incident per entry; a payload with nothing in it normalises to the
    empty sequence; an object with no recognised wrapper has its own
    values taken as the entries. *)
Theorem C4_normalisation_returns_without_null ent data :
  nullish data = false →
  (∃ entries,
      incidentsData data = Normal entries
      ∧ (Forall (λ e, nullish e = false) entries →
         ∃ incs, normalize ent data = Normal incs
                 ∧ length incs = length entries))
  ∧ (empty_payload data = true → normalize ent data = Normal [])
  ∧ (∀ fields, data = JObj fields → no_wrapper fields = true →
       incidentsData data = Normal (fields.*2)).
Proof.
  intros Hdata. split; [| split].
  - destruct (incidentsData_total data Hdata) as (entries & Hentries).
    exists entries. split; [exact Hentries |]. intros Hall.
    unfold normalize. rewrite Hentries. cbn [mbind Completion_bind].
    by apply formattedIncidents_total.
  - destruct data as [| | b | n | s | [| x l] | [| kv l]]; try discriminate;
      try reflexivity.
    destruct s as [| c s]; [reflexivity | discriminate].
  - intros fields -> Hfields. by apply incidentsData_no_wrapper.
Qed.

End payloads.

(** ** A poll that fails *)

Section polling.
Context `{Runtime}.

Lemma js_or_truthy_r a b : truthy b = true → truthy (a <||> b) = true.
Proof. intros Hb. unfold js_or. by destruct (truthy a) eqn:Ha. Qed.

Lemma fetchIncidents_keeps_view_state ent resp st :
  IncidentList.selectedIncidents (IncidentList.fetchIncidents ent resp st)
    = IncidentList.selectedIncidents st
  ∧ IncidentList.sortConfig (IncidentList.fetchIncidents ent resp st)
    = IncidentList.sortConfig st.
Proof.
  unfold IncidentList.fetchIncidents.
  destruct resp as [data | err]; simpl.
  - unfold IncidentList.fetched.
    destruct (IncidentList.normalize ent data) as [incs | e]; simpl;
      [split; reflexivity |].
    unfold IncidentList.caught, js_get.
    destruct (own_props e); simpl; split; reflexivity.
  - unfold IncidentList.caught, js_get.
    destruct (own_props err); simpl; split; reflexivity.
Qed.

Lemma fetchIncidents_rejected ent err st :
  let st' := IncidentList.fetchIncidents ent (Rejected err) st in
  IncidentList.incidents st' = IncidentList.incidents st
  ∧ IncidentList.loading st' = false
  ∧ (nullish err = false →
     IncidentList.error st'
     = opt_get (opt_get (opt_get err "response") "data") "message"
         <||> opt_get err "message" <||> JStr "Ошибка загрузки данных"
     ∧ truthy (IncidentList.error st') = true).
Proof.
  unfold IncidentList.fetchIncidents, IncidentList.caught, js_get, opt_get.
  destruct (own_props err) as [p |] eqn:Hp; simpl.
  - split; [reflexivity | split; [reflexivity | intros _]].
    split; [reflexivity |]. do 2 apply js_or_truthy_r. reflexivity.
  - split; [reflexivity | split; [reflexivity | intros Herr]].
    destruct (own_props_nullish err Herr) as [p Hp']. congruence.
Qed.

Lemma fetchIncidents_threw ent data e st :
  IncidentList.normalize ent data = Throw e →
  IncidentList.incidents (IncidentList.fetchIncidents ent (Resolved data) st)
  = IncidentList.incidents st.
Proof.
  intros He. unfold IncidentList.fetchIncidents, IncidentList.fetched.
  rewrite He. simpl. unfold IncidentList.caught, js_get.
  destruct (own_props e); reflexivity.
Qed.

Lemma fetchIncidents_resolved ent data incs st :
  IncidentList.normalize ent data = Normal incs →
  IncidentList.fetchIncidents ent (Resolved data) st
  = IncidentList.setLoading false
      (IncidentList.setError JNull (IncidentList.setIncidents incs st)).
Proof.
  intros Hn. unfold IncidentList.fetchIncidents, IncidentList.fetched.
  by rewrite Hn.
Qed.

(** C5.  A poll that fails, because the request is rejected or because
    normalisation throws, leaves the incident list, the selection set and
    the sort configuration as they were; a rejection with an error object
    records a message, which is never empty.  After a poll that stored 8
    incidents a rejected poll leaves these 8 incidents in the store with
    the error set.  The variant that stores the payload as it is keeps its
    list, selection and sort configuration on a rejected poll as well and
    records the message of the error, and keeps its list when reading the
    payload throws. *)
Theorem C5_failed_poll_keeps_snapshot ent ent' err :
  (∀ st,
     let st' := IncidentList.fetchIncidents ent (Rejected err) st in
     IncidentList.incidents st' = IncidentList.incidents st
     ∧ IncidentList.selectedIncidents st' = IncidentList.selectedIncidents st
     ∧ IncidentList.sortConfig st' = IncidentList.sortConfig st
     ∧ (nullish err = false →
        IncidentList.error st'
        = opt_get (opt_get (opt_get err "response") "data") "message"
            <||> opt_get err "message" <||> JStr "Ошибка загрузки данных"
        ∧ truthy (IncidentList.error st') = true))
  ∧ (∀ st data e,
       IncidentList.normalize ent data = Throw e →
       let st' := IncidentList.fetchIncidents ent (Resolved data) st in
       IncidentList.incidents st' = IncidentList.incidents st
       ∧ IncidentList.selectedIncidents st' = IncidentList.selectedIncidents st
       ∧ IncidentList.sortConfig st' = IncidentList.sortConfig st)
  ∧ (∀ st data incs,
       IncidentList.normalize ent data = Normal incs →
       length incs = 8%nat →
       nullish err = false →
       let st1 := IncidentList.fetchIncidents ent (Resolved data) st in
       let st2 := IncidentList.fetchIncidents ent' (Rejected err) st1 in
       IncidentList.incidents st2 = incs
       ∧ length (IncidentList.incidents st2) = 8%nat
       ∧ IncidentList.error st1 = JNull
       ∧ truthy (IncidentList.error st2) = true)
  ∧ (∀ st,
       let st' := IncidentListV1.fetchIncidents (Rejected err) st in
       IncidentListV1.incidents st' = IncidentListV1.incidents st
       ∧ IncidentListV1.selectedIncidents st' = IncidentListV1.selectedIncidents st
       ∧ IncidentListV1.sortConfig st' = IncidentListV1.sortConfig st
       ∧ (nullish err = false →
          IncidentListV1.error st' = opt_get err "message"))
  ∧ (∀ st data e,
       IncidentListV1.fetched data st = Throw e →
       IncidentListV1.incidents
         (IncidentListV1.fetchIncidents (Resolved data) st)
       = IncidentListV1.incidents st).
Proof.
  split; [| split; [| split; [| split]]].
  - intros st st'. subst st'.
    destruct (fetchIncidents_rejected ent err st) as (Hi & _ & He).
    destruct (fetchIncidents_keeps_view_state ent (Rejected err) st) as (Hs & Hc).
    auto.
  - intros st data e He st'. subst st'.
    destruct (fetchIncidents_keeps_view_state ent (Resolved data) st) as (Hs & Hc).
    split; [by eapply fetchIncidents_threw | auto].
  - intros st data incs Hn Hlen Herr st1 st2. subst st1 st2.
    rewrite (fetchIncidents_resolved _ _ _ _ Hn).
    match goal with
    | |- context [IncidentList.fetchIncidents ent' (Rejected err) ?s] =>
        destruct (fetchIncidents_rejected ent' err s) as (Hi & _ & He)
    end.
    destruct (He Herr) as (_ & Ht). rewrite Hi. simpl. auto.
  - intros st st'. subst st'.
    unfold IncidentListV1.fetchIncidents, IncidentListV1.caught, js_get, opt_get.
    destruct (own_props err) as [p |] eqn:Hp; simpl.
    + repeat split; reflexivity.
    + repeat split; try reflexivity.
      intros Herr. destruct (own_props_nullish err Herr) as [p Hp']. congruence.
  - intros st data e He. unfold IncidentListV1.fetchIncidents.
    rewrite He. unfold IncidentListV1.caught, js_get.
    by destruct (own_props e).
Qed.

End polling.

(** ** The selection set *)

Section selection.
Context `{Runtime}.

Lemma toggleSelectAll_selected st :
  IncidentList.selectedIncidents (IncidentList.toggleSelectAll st)
  = if bool_decide (size (IncidentList.selectedIncidents st)
                    = length (IncidentList.incidents st))
       && bool_decide (0 < length (IncidentList.incidents st))%nat
    then ∅ else list_to_set (ids (IncidentList.incidents st)).
Proof.
  unfold IncidentList.toggleSelectAll. by destruct (_ && _).
Qed.

Lemma toggleSelectAll_incidents st :
  IncidentList.incidents (IncidentList.toggleSelectAll st)
  = IncidentList.incidents st.
Proof.
  unfold IncidentList.toggleSelectAll. by destruct (_ && _).
Qed.

Lemma size_all_ids (l : list Incident) :
  NoDup (ids l) → size (list_to_set (ids l) : gset JsVal) = length l.
Proof.
  intros Hnd. rewrite size_list_to_set by done. unfold ids. apply length_fmap.
Qed.

(** Two invocations, for distinct ids: back to the start exactly from
    the empty selection and from the selection of all ids. *)
Lemma toggleSelectAll_twice st :
  NoDup (ids (IncidentList.incidents st)) →
  IncidentList.selectedIncidents
    (IncidentList.toggleSelectAll (IncidentList.toggleSelectAll st))
  = IncidentList.selectedIncidents st
  ↔ IncidentList.selectedIncidents st = ∅
    ∨ IncidentList.selectedIncidents st
      = list_to_set (ids (IncidentList.incidents st)).
Proof.
  intros Hnd.
  rewrite (toggleSelectAll_selected (IncidentList.toggleSelectAll st)).
  rewrite toggleSelectAll_incidents, toggleSelectAll_selected.
  pose proof (size_all_ids _ Hnd) as Hall.
  rewrite <- !bool_decide_and.
  destruct (decide (size (IncidentList.selectedIncidents st)
                    = length (IncidentList.incidents st)
                    ∧ (0 < length (IncidentList.incidents st))%nat))
    as [[Hsize Hlen] | Hno].
  - rewrite (bool_decide_eq_true_2 _ (conj Hsize Hlen)), size_empty.
    rewrite bool_decide_eq_false_2 by lia.
    split; [auto |]. intros [E | E]; [| done].
    rewrite E, size_empty in Hsize. lia.
  - rewrite (bool_decide_eq_false_2 _ Hno), Hall.
    destruct (IncidentList.incidents st) as [| x l] eqn:El.
    + rewrite bool_decide_eq_false_2 by (simpl; lia).
      split; [auto |]. by intros [-> | ->].
    + rewrite bool_decide_eq_true_2 by (simpl; lia).
      split; [auto |]. intros [E | E]; [done |].
      destruct Hno. rewrite E, Hall. simpl. lia.
Qed.

Lemma ids_of_entries l :
  Forall (λ e, nullish e = false) l →
  IncidentListV1.ids_of l = Normal ((λ e, opt_get e "id") <$> l).
Proof.
  induction 1 as [| e l He _ IH]; simpl; [reflexivity |].
  unfold js_get, opt_get. destruct (own_props_nullish e He) as [p ->].
  rewrite IH. reflexivity.
Qed.

Lemma toggleSelectAll_v1_selected st l :
  IncidentListV1.incidents st = JArr l →
  Forall (λ e, nullish e = false) l →
  IncidentListV1.selectedIncidents (IncidentListV1.toggleSelectAll st)
  = if bool_decide (size (IncidentListV1.selectedIncidents st) = length l)
    then ∅ else list_to_set ((λ e, opt_get e "id") <$> l).
Proof.
  intros Hl Hall. unfold IncidentListV1.toggleSelectAll. rewrite Hl. simpl.
  rewrite (ids_of_entries l Hall).
  destruct (decide (size (IncidentListV1.selectedIncidents st) = length l))
    as [E | E].
  - rewrite E, !bool_decide_eq_true_2 by done. reflexivity.
  - rewrite !bool_decide_eq_false_2; [reflexivity | done |].
    intros [= E']. apply E. lia.
Qed.

(** C9 (as amended).  toggleSelectAll clears the selection when the set
    has as many members as the list has incidents and the list is not
    empty, and otherwise selects the ids of all incidents of the list;
    when the ids of the list are distinct and the selection holds ids of
    the list only, this selects all ids if not all are selected and
    clears the set otherwise.  With distinct ids and the list unchanged,
    two invocations return the selection to its original state exactly
    when that state was empty or held all ids of the list.  The variant
    that stores the payload as it is compares the two sizes only. *)
Theorem C9_toggle_select_all st :
  let sel := IncidentList.selectedIncidents st in
  let all : gset JsVal := list_to_set (ids (IncidentList.incidents st)) in
  IncidentList.selectedIncidents (IncidentList.toggleSelectAll st)
  = (if bool_decide (size sel = length (IncidentList.incidents st))
        && bool_decide (0 < length (IncidentList.incidents st))%nat
     then ∅ else all)
  ∧ (NoDup (ids (IncidentList.incidents st)) → sel ⊆ all →
     IncidentList.selectedIncidents (IncidentList.toggleSelectAll st)
     = if decide (sel = all) then ∅ else all)
  ∧ (NoDup (ids (IncidentList.incidents st)) →
     IncidentList.selectedIncidents
       (IncidentList.toggleSelectAll (IncidentList.toggleSelectAll st)) = sel
     ↔ sel = ∅ ∨ sel = all)
  ∧ (∀ st1 l,
       IncidentListV1.incidents st1 = JArr l →
       Forall (λ e, nullish e = false) l →
       IncidentListV1.selectedIncidents (IncidentListV1.toggleSelectAll st1)
       = if bool_decide (size (IncidentListV1.selectedIncidents st1) = length l)
         then ∅ else list_to_set ((λ e, opt_get e "id") <$> l)).
Proof.
  intros sel all.
  split; [apply toggleSelectAll_selected | split; [| split]];
    [| | apply toggleSelectAll_v1_selected].
  - intros Hnd Hsub. rewrite toggleSelectAll_selected. fold sel all.
    pose proof (size_all_ids _ Hnd) as Hall. fold all in Hall.
    destruct (decide (sel = all)) as [-> | Hne].
    + rewrite Hall, bool_decide_eq_true_2 by done. simpl.
      case_bool_decide as Hlen; [reflexivity |].
      destruct (IncidentList.incidents st); simpl in *; [done | lia].
    + rewrite bool_decide_eq_false_2; [reflexivity |].
      intros Hsize. apply Hne, set_subseteq_size_eq; [done |]. lia.
  - intros Hnd. by apply toggleSelectAll_twice.
Qed.

End selection.

Lemma add_after_delete (id : JsVal) (sel : gset JsVal) :
  id ∈ sel → sel ∖ {[ id ]} ∪ {[ id ]} = sel.
Proof.
  intros Hin. apply set_eq. intros x.
  rewrite elem_of_union, elem_of_difference, elem_of_singleton.
  destruct (decide (x = id)) as [-> | Hne]; tauto.
Qed.

Lemma delete_after_add (id : JsVal) (sel : gset JsVal) :
  id ∉ sel → (sel ∪ {[ id ]}) ∖ {[ id ]} = sel.
Proof.
  intros Hout. apply set_eq. intros x.
  rewrite elem_of_difference, elem_of_union, elem_of_singleton.
  destruct (decide (x = id)) as [-> | Hne]; tauto.
Qed.

Lemma toggled_membership (id j : JsVal) (sel : gset JsVal) :
  j ∈ (if decide (id ∈ sel) then sel ∖ {[ id ]} else sel ∪ {[ id ]})
  ↔ (if decide (j = id) then id ∉ sel else j ∈ sel).
Proof.
  destruct (decide (id ∈ sel)) as [Hin | Hout];
    [rewrite elem_of_difference | rewrite elem_of_union];
    rewrite elem_of_singleton;
    destruct (decide (j = id)) as [-> | Hne]; tauto.
Qed.

(** C10.  toggleIncidentSelection changes the membership of the given id
    and of no other id, and a second toggle of the same id restores the
    state; in both variants of the component. *)
Theorem C10_toggle_one_involution id :
  (∀ st,
     let st' := IncidentList.toggleIncidentSelection id st in
     (id ∈ IncidentList.selectedIncidents st'
        ↔ id ∉ IncidentList.selectedIncidents st)
     ∧ (∀ j, j ≠ id →
          j ∈ IncidentList.selectedIncidents st'
          ↔ j ∈ IncidentList.selectedIncidents st)
     ∧ IncidentList.toggleIncidentSelection id st' = st)
  ∧ (∀ st,
       let st' := IncidentListV1.toggleIncidentSelection id st in
       (id ∈ IncidentListV1.selectedIncidents st'
          ↔ id ∉ IncidentListV1.selectedIncidents st)
       ∧ (∀ j, j ≠ id →
            j ∈ IncidentListV1.selectedIncidents st'
            ↔ j ∈ IncidentListV1.selectedIncidents st)
       ∧ IncidentListV1.toggleIncidentSelection id st' = st).
Proof.
  split; intros [incs ld err sel cfg]; cbn zeta.
  - unfold IncidentList.toggleIncidentSelection,
      IncidentList.setSelectedIncidents; cbn [IncidentList.selectedIncidents
      IncidentList.incidents IncidentList.loading IncidentList.error
      IncidentList.sortConfig].
    split; [| split].
    + rewrite toggled_membership. by rewrite decide_True.
    + intros j Hj. rewrite toggled_membership. by rewrite decide_False.
    + f_equal. destruct (decide (id ∈ sel)) as [Hin | Hout].
      * rewrite decide_False by (rewrite elem_of_difference, elem_of_singleton; tauto).
        by apply add_after_delete.
      * rewrite decide_True by (rewrite elem_of_union, elem_of_singleton; tauto).
        by apply delete_after_add.
  - unfold IncidentListV1.toggleIncidentSelection,
      IncidentListV1.setSelectedIncidents; cbn [IncidentListV1.selectedIncidents
      IncidentListV1.incidents IncidentListV1.loading IncidentListV1.error
      IncidentListV1.sortConfig].
    split; [| split].
    + rewrite toggled_membership. by rewrite decide_True.
    + intros j Hj. rewrite toggled_membership. by rewrite decide_False.
    + f_equal. destruct (decide (id ∈ sel)) as [Hin | Hout].
      * rewrite decide_False by (rewrite elem_of_difference, elem_of_singleton; tauto).
        by apply add_after_delete.
      * rewrite decide_True by (rewrite elem_of_union, elem_of_singleton; tauto).
        by apply delete_after_add.
Qed.

(** ** The stable sort *)

Section stable_sort.
Context {A : Type} (cmp : A → A → option Z).

Lemma js_insert_Permutation x s : js_insert cmp x s ≡ₚ x :: s.
Proof.
  induction s as [| y s IH]; simpl; [reflexivity |].
  destruct (comes_after (cmp x y)); [| reflexivity].
  rewrite IH. apply Permutation_swap.
Qed.

Lemma js_sort_Permutation l : js_sort cmp l ≡ₚ l.
Proof.
  induction l as [| x l IH]; simpl; [reflexivity |].
  rewrite js_insert_Permutation. by rewrite IH.
Qed.

(** Where the comparison function orders by an integer key, the result is
    sorted by that key. *)
Context (k : A → Z).
Let by_key : relation A := λ x y, (k x ≤ k y)%Z.

Lemma js_insert_sorted x s :
  (∀ y, y ∈ s → comes_after (cmp x y) = true ↔ (k y < k x)%Z) →
  StronglySorted by_key s → StronglySorted by_key (js_insert cmp x s).
Proof.
  intros Hcmp Hs. induction Hs as [| y s Hs IH Hy]; simpl.
  - repeat constructor.
  - destruct (comes_after (cmp x y)) eqn:E.
    + apply Hcmp in E; [| by left]. constructor.
      * apply IH. intros z Hz. apply Hcmp. by right.
      * rewrite js_insert_Permutation. constructor; [| exact Hy].
        unfold by_key. lia.
    + assert (k x ≤ k y)%Z as Hxy.
      { destruct (decide (k y < k x)%Z) as [Hlt |]; [| lia].
        apply Hcmp in Hlt; [congruence | by left]. }
      constructor; [by constructor |]. constructor; [exact Hxy |].
      eapply Forall_impl; [exact Hy |]. unfold by_key. simpl. intros; lia.
Qed.

Lemma js_sort_sorted l :
  (∀ x y, x ∈ l → y ∈ l → comes_after (cmp x y) = true ↔ (k y < k x)%Z) →
  StronglySorted by_key (js_sort cmp l).
Proof.
  induction l as [| x l IH]; intros Hcmp; simpl; [constructor |].
  apply js_insert_sorted.
  - intros y Hy. rewrite js_sort_Permutation in Hy.
    apply Hcmp; [by left | by right].
  - apply IH. intros y z Hy Hz. apply Hcmp; by right.
Qed.

End stable_sort.

Lemma StronglySorted_weaken {A : Type} (R1 R2 : relation A) l :
  (∀ x y, R1 x y → R2 x y) → StronglySorted R1 l → StronglySorted R2 l.
Proof.
  intros Himp. induction 1 as [| x l _ IH Hx]; constructor; [exact IH |].
  eapply Forall_impl; [exact Hx | apply Himp].
Qed.

Lemma NoDup_fmap_eq {A B : Type} (f : A → B) (l : list A) x y :
  NoDup (f <$> l) → x ∈ l → y ∈ l → f x = f y → x = y.
Proof.
  induction l as [| a l IH]; simpl; [by intros _ ?%elem_of_nil |].
  rewrite NoDup_cons, !elem_of_cons, list_elem_of_fmap.
  intros [Ha Hnd] [-> | Hx] [-> | Hy] Hf; auto.
  - destruct Ha. exists y. auto.
  - destruct Ha. exists x. auto.
Qed.

(** ** The view sorted by timestamp *)

Section sorted_view.
Context `{Runtime}.

Lemma compare_by_timestamp d a b :
  IncidentList.compare {| key := timestamp; direction := d |} a b
  = match d with
    | asc => time_sub (timestamp_time a) (timestamp_time b)
    | desc => time_sub (timestamp_time b) (timestamp_time a)
    end.
Proof. reflexivity. Qed.

Lemma time_sub_unparsable x y : x = None ∨ y = None → time_sub x y = None.
Proof. intros [-> | ->]; [reflexivity | by destruct x]. Qed.

Lemma time_lt_unparsable x y : x = None ∨ y = None → time_lt x y = false.
Proof. intros [-> | ->]; [reflexivity | by destruct x]. Qed.

Lemma sortedIncidents_by_timestamp d st :
  IncidentList.sortedIncidents (by_timestamp d st)
  = js_sort (IncidentList.compare {| key := timestamp; direction := d |})
      (IncidentList.incidents st).
Proof.
  unfold IncidentList.sortedIncidents, by_timestamp. simpl.
  case_bool_decide as Hlen; [reflexivity |].
  destruct (IncidentList.incidents st); simpl in *; [reflexivity | lia].
Qed.

(** C6 (as amended).  When sorting by the timestamp key, in either
    direction, the comparison of two incidents of which one has an
    unparsable timestamp is [NaN], which the sort takes for a tie: the
    incident is not ordered as the oldest, and a list of two such
    incidents is shown in stored order.  In the variant that stores the
    payload as it is the comparison is zero, with the same outcome. *)
Theorem C6_unparsable_timestamp_ties d :
  let cfg := {| key := timestamp; direction := d |} in
  (∀ a b,
     timestamp_time a = None ∨ timestamp_time b = None →
     IncidentList.compare cfg a b = None
     ∧ comes_after (IncidentList.compare cfg a b) = false
     ∧ ∀ st, IncidentList.incidents st = [a; b] →
         IncidentList.sortedIncidents (by_timestamp d st) = [a; b])
  ∧ (∀ ea eb a b,
       own_props ea = Some a → own_props eb = Some b →
       Date_time (prop a "timestamp") = None
         ∨ Date_time (prop b "timestamp") = None →
       IncidentListV1.compare cfg ea eb = Normal (Some 0%Z)
       ∧ ∀ st, IncidentListV1.incidents st = JArr [ea; eb] →
           IncidentListV1.sortedIncidents
             (IncidentListV1.setSortConfig cfg st) = Normal [ea; eb]).
Proof.
  intros cfg. split.
  - intros a b Hbad.
    assert (IncidentList.compare cfg a b = None) as Hab.
    { unfold cfg. rewrite compare_by_timestamp.
      destruct d; apply time_sub_unparsable; tauto. }
    split; [exact Hab | split; [by rewrite Hab |]].
    intros st Hst. rewrite sortedIncidents_by_timestamp, Hst. simpl.
    fold cfg. by rewrite Hab.
  - intros ea eb a b Ha Hb Hbad.
    assert (IncidentListV1.compare cfg ea eb = Normal (Some 0%Z)) as Hcmp.
    { unfold IncidentListV1.compare, js_get. rewrite Ha, Hb. simpl.
      rewrite !time_lt_unparsable by tauto. reflexivity. }
    split; [exact Hcmp |]. intros st Hst.
    unfold IncidentListV1.sortedIncidents. simpl. rewrite Hst. simpl.
    by rewrite Hcmp.
Qed.

Lemma comes_after_asc l x y :
  Forall (λ a, is_Some (timestamp_time a)) l → x ∈ l → y ∈ l →
  comes_after (IncidentList.compare {| key := timestamp; direction := asc |} x y)
    = true
  ↔ (time_key y < time_key x)%Z.
Proof.
  rewrite Forall_forall. intros Hall Hx Hy.
  destruct (Hall x Hx) as [tx Ex], (Hall y Hy) as [ty Ey].
  rewrite compare_by_timestamp. unfold time_key. rewrite Ex, Ey. simpl.
  rewrite Z.ltb_lt. lia.
Qed.

Lemma comes_after_desc l x y :
  Forall (λ a, is_Some (timestamp_time a)) l → x ∈ l → y ∈ l →
  comes_after (IncidentList.compare {| key := timestamp; direction := desc |} x y)
    = true
  ↔ (- time_key y < - time_key x)%Z.
Proof.
  rewrite Forall_forall. intros Hall Hx Hy.
  destruct (Hall x Hx) as [tx Ex], (Hall y Hy) as [ty Ey].
  rewrite compare_by_timestamp. unfold time_key. rewrite Ex, Ey. simpl.
  rewrite Z.ltb_lt. lia.
Qed.

(** C7 (as amended).  For a list in which every timestamp is parsable and
    no two incidents have the same time value, the view sorted by
    timestamp descending is the reverse of the view sorted ascending. *)
Theorem C7_descending_reverses_ascending st :
  Forall (λ a, is_Some (timestamp_time a)) (IncidentList.incidents st) →
  NoDup (timestamp_time <$> IncidentList.incidents st) →
  IncidentList.sortedIncidents (by_timestamp desc st)
  = reverse (IncidentList.sortedIncidents (by_timestamp asc st)).
Proof.
  intros Hall Hnd. rewrite !sortedIncidents_by_timestamp.
  set (l := IncidentList.incidents st) in *.
  set (R := flip (λ x y : Incident, (time_key x ≤ time_key y)%Z)).
  assert (Transitive R) as HR by (intros x y z; unfold R, flip; lia).
  apply (StronglySorted_unique_strong R).
  - intros x y Hx Hy Hxy Hyx.
    rewrite js_sort_Permutation in Hx.
    rewrite reverse_Permutation, js_sort_Permutation in Hy.
    apply (NoDup_fmap_eq timestamp_time l); [done .. |].
    rewrite Forall_forall in Hall.
    destruct (Hall x Hx) as [tx Ex], (Hall y Hy) as [ty Ey].
    unfold R, flip, time_key in Hxy, Hyx. rewrite Ex, Ey in *. simpl in *.
    f_equal. lia.
  - apply (StronglySorted_weaken (λ x y, (- time_key x ≤ - time_key y)%Z)).
    { intros x y. unfold R, flip. lia. }
    apply (js_sort_sorted _ (λ a, - time_key a)%Z).
    intros x y. by apply comes_after_desc.
  - apply Sorted_StronglySorted; [exact HR |].
    apply (Sorted_reverse (λ x y, (time_key x ≤ time_key y)%Z)).
    apply StronglySorted_Sorted.
    apply (js_sort_sorted _ time_key).
    intros x y. by apply comes_after_asc.
  - by rewrite reverse_Permutation, !js_sort_Permutation.
Qed.

End sorted_view.

(** ** The theorems at sample inputs *)

Section samples.
Import Reference Sample.
#[local] Existing Instance Reference.runtime.

(** C1 at the entry [{user: "alice", action: "BLOCK"}], for platform. *)
Lemma C1_canonical_fields_present_witness :
  let e := JObj [("user", JStr "alice"); ("action", JStr "BLOCK")] in
  let r := IncidentList.formatProps entropy 0
             (list_to_map [("user", JStr "alice"); ("action", JStr "BLOCK")]) in
  IncidentList.formatIncident entropy 0 e = Normal r
  ∧ ("platform", (["source"; "channel"], "Unknown")) ∈ defaulted
  ∧ is_Some (r !! "platform")
  ∧ r !! "platform" = Some (JStr "Unknown").
Proof.
  intros e r.
  assert (IncidentList.formatIncident entropy 0 e = Normal r) as Hr
    by reflexivity.
  assert (("platform", (["source"; "channel"], "Unknown")) ∈ defaulted) as Hf
    by compute_done.
  destruct (C1_canonical_fields_present entropy 0 e r _ _ _ Hr Hf)
    as (Hsome & Hdefault & _).
  split; [exact Hr | split; [exact Hf | split; [exact Hsome |]]].
  apply (Hdefault (list_to_map [("user", JStr "alice"); ("action", JStr "BLOCK")]));
    [reflexivity | reflexivity | ].
  repeat constructor.
Defined.

(** C1 (counterexample).  The entry [{user_id: 42}] normalises to a record
    whose user_id is the number 42, not a string. *)
Lemma C1_counterexample :
  ∃ r, IncidentList.formatIncident entropy 0 (JObj [("user_id", JNum 42)])
       = Normal r
       ∧ r !! "user_id" = Some (JNum 42)
       ∧ ¬ ∃ s, r !! "user_id" = Some (JStr s).
Proof.
  exists (IncidentList.formatProps entropy 0 (list_to_map [("user_id", JNum 42)])).
  split; [reflexivity | split; [reflexivity |]].
  intros (s & Hs). vm_compute in Hs. discriminate.
Qed.

(** C3 at two entries, wrapped under data and held by an object with the
    keys a and b. *)
Lemma C3_payload_shapes_agree_witness :
  let entries := [JObj [("_id", JNum 7)]; JObj [("id", JNum 8)]] in
  let fields := [("a", JObj [("_id", JNum 7)]); ("b", JObj [("id", JNum 8)])] in
  fields.*2 = entries
  ∧ no_wrapper fields = true
  ∧ IncidentList.normalize entropy (JObj fields)
    = IncidentList.normalize entropy (JArr entries)
  ∧ IncidentList.normalize entropy (JObj [("data", JArr entries)])
    = IncidentList.normalize entropy (JArr entries).
Proof.
  intros entries fields.
  destruct (C3_payload_shapes_agree entropy entries) as (_ & Hdata & _ & Hobj).
  split; [reflexivity | split; [reflexivity | split; [| exact Hdata]]].
  apply Hobj; reflexivity.
Defined.

(** C3 (counterexample).  The values of the object [{data: []}] are the
    one entry [[]]; the bare array of that entry normalises to one
    incident, the object to none, because its data property is taken for
    the wrapper. *)
Lemma C3_counterexample :
  Object_values (JObj [("data", JArr [])]) = Normal [JArr []]
  ∧ IncidentList.normalize entropy (JObj [("data", JArr [])]) = Normal []
  ∧ ∃ r, IncidentList.normalize entropy (JArr [JArr []]) = Normal [r].
Proof.
  split; [reflexivity | split; [reflexivity |]].
  exists (IncidentList.formatProps entropy 0 ∅). reflexivity.
Qed.

(** C4 at the payload [{items: [], total: 0}]. *)
Lemma C4_normalisation_returns_without_null_witness :
  let data := JObj [("items", JArr []); ("total", JNum 0)] in
  nullish data = false
  ∧ (∃ entries,
        IncidentList.incidentsData data = Normal entries
        ∧ (Forall (λ e, nullish e = false) entries →
           ∃ incs, IncidentList.normalize entropy data = Normal incs
                   ∧ length incs = length entries))
  ∧ IncidentList.incidentsData data = Normal [JArr []; JNum 0].
Proof.
  intros data.
  destruct (C4_normalisation_returns_without_null entropy data eq_refl)
    as (Hentries & _ & Hobj).
  split; [reflexivity | split; [exact Hentries |]].
  apply (Hobj [("items", JArr []); ("total", JNum 0)]); reflexivity.
Defined.

(** C4 (counterexample).  The payload [{items: [], total: 0}] has no
    recognised wrapper and carries no incident; it normalises to two
    incidents made of defaults, not to the empty sequence. *)
Lemma C4_counterexample :
  no_wrapper [("items", JArr []); ("total", JNum 0)] = true
  ∧ IncidentList.normalize entropy (JObj [("items", JArr []); ("total", JNum 0)])
    = Normal [ IncidentList.formatProps entropy 0 ∅;
               IncidentList.formatProps entropy 1 ∅ ]
  ∧ IncidentList.formatProps entropy 0 ∅ !! "id" = Some (JStr "k3x90")
  ∧ IncidentList.formatProps entropy 0 ∅ !! "incident_type"
    = Some (JStr "Unknown").
Proof. repeat split; vm_compute; reflexivity. Qed.

(** C5 at a poll of eight entries followed by a network error. *)
Lemma C5_failed_poll_keeps_snapshot_witness :
  let st1 := IncidentList.fetchIncidents entropy (Resolved eight_entries)
               IncidentList.initial in
  let st2 := IncidentList.fetchIncidents entropy (Rejected network_error) st1 in
  nullish network_error = false
  ∧ length (IncidentList.incidents st1) = 8%nat
  ∧ IncidentList.incidents st2 = IncidentList.incidents st1
  ∧ length (IncidentList.incidents st2) = 8%nat
  ∧ IncidentList.error st2 = JStr "Network Error"
  ∧ truthy (IncidentList.error st2) = true.
Proof.
  intros st1 st2.
  destruct (C5_failed_poll_keeps_snapshot entropy entropy network_error)
    as (Hrej & _ & Height & _ & _).
  destruct (Hrej st1) as (Hincs & _ & _ & Herr).
  destruct (Herr eq_refl) as (Hmsg & _).
  assert (IncidentList.normalize entropy eight_entries
          = Normal (IncidentList.incidents st1)) as Hn
    by (vm_compute; reflexivity).
  assert (length (IncidentList.incidents st1) = 8%nat) as Hlen
    by (vm_compute; reflexivity).
  destruct (Height IncidentList.initial eight_entries _ Hn Hlen eq_refl)
    as (_ & Hlen2 & _ & Htruthy).
  split; [reflexivity | split; [exact Hlen | split; [exact Hincs |]]].
  split; [exact Hlen2 |].
  split; [subst st2; rewrite Hmsg; reflexivity | exact Htruthy].
Defined.

(** C6 (counterexample).  After a poll that returned an entry dated
    2024-01-01 followed by an entry whose timestamp is not a date, the
    view sorted by timestamp ascending shows the dated incident first: the
    unparsable one is not ordered before it. *)
Lemma C6_counterexample :
  let view := IncidentList.sortedIncidents (by_timestamp asc (loaded two_entries)) in
  ids view = [JNum 1; JNum 2]
  ∧ timestamp_time <$> view = [Some 1704067200000%Z; None].
Proof. split; vm_compute; reflexivity. Qed.

(** C6 at the state holding a dated and an undated incident, sorted
    descending. *)
Lemma C6_unparsable_timestamp_ties_witness :
  ∃ a b,
    IncidentList.incidents (loaded two_entries) = [a; b]
    ∧ timestamp_time b = None
    ∧ IncidentList.compare {| key := timestamp; direction := desc |} a b = None
    ∧ IncidentList.sortedIncidents (by_timestamp desc (loaded two_entries))
      = [a; b].
Proof.
  exists (IncidentList.formatProps entropy 0
            (list_to_map [("id", JNum 1);
                          ("timestamp", JStr "2024-01-01T00:00:00Z")])),
         (IncidentList.formatProps entropy 1
            (list_to_map [("id", JNum 2); ("timestamp", JStr "not a date")])).
  assert (timestamp_time
            (IncidentList.formatProps entropy 1
               (list_to_map [("id", JNum 2); ("timestamp", JStr "not a date")]))
          = None) as Hb by reflexivity.
  destruct (C6_unparsable_timestamp_ties desc) as (Hties & _).
  match goal with
  | |- IncidentList.incidents _ = [?a; ?b] ∧ _ =>
      destruct (Hties a b (or_intror Hb)) as (Hab & _ & Hview)
  end.
  split; [reflexivity | split; [exact Hb | split; [exact Hab |]]].
  apply Hview. reflexivity.
Defined.

(** C7 (counterexample).  In the same state the two incidents have
    different timestamps, yet the view sorted descending is not the
    reverse of the view sorted ascending: both show the stored order. *)
Lemma C7_counterexample :
  let st := loaded two_entries in
  NoDup ((λ a, prop a "timestamp") <$> IncidentList.incidents st)
  ∧ NoDup (timestamp_time <$> IncidentList.incidents st)
  ∧ ids (IncidentList.sortedIncidents (by_timestamp desc st)) = [JNum 1; JNum 2]
  ∧ ids (reverse (IncidentList.sortedIncidents (by_timestamp asc st)))
    = [JNum 2; JNum 1]
  ∧ IncidentList.sortedIncidents (by_timestamp desc st)
    ≠ reverse (IncidentList.sortedIncidents (by_timestamp asc st)).
Proof.
  intros st.
  split; [compute_done | split; [compute_done |]].
  split; [vm_compute; reflexivity | split; [vm_compute; reflexivity |]].
  intros E. apply (f_equal ids) in E. vm_compute in E. discriminate.
Qed.

(** C7 at the state holding two incidents with distinct dates. *)
Lemma C7_descending_reverses_ascending_witness :
  let st := loaded two_dated in
  Forall (λ a, is_Some (timestamp_time a)) (IncidentList.incidents st)
  ∧ NoDup (timestamp_time <$> IncidentList.incidents st)
  ∧ IncidentList.sortedIncidents (by_timestamp desc st)
    = reverse (IncidentList.sortedIncidents (by_timestamp asc st))
  ∧ ids (IncidentList.sortedIncidents (by_timestamp desc st))
    = [JNum 2; JNum 1].
Proof.
  intros st.
  assert (Forall (λ a, is_Some (timestamp_time a)) (IncidentList.incidents st))
    as Hall by (repeat constructor; by eexists).
  assert (NoDup (timestamp_time <$> IncidentList.incidents st)) as Hnd
    by compute_done.
  split; [exact Hall | split; [exact Hnd | split]].
  - exact (C7_descending_reverses_ascending st Hall Hnd).
  - vm_compute. reflexivity.
Defined.

(** C8 at the entry of the example and the record it is mapped to. *)
Lemma C8_normalisation_idempotent_witness :
  let e := JObj [("_id", JNum 7); ("date", JStr "2024-01-01T00:00:00Z")] in
  let r := IncidentList.formatProps entropy 0
             (list_to_map [("_id", JNum 7);
                           ("date", JStr "2024-01-01T00:00:00Z")]) in
  let v := JObj [("id", JNum 7); ("timestamp", JStr "2024-01-01T00:00:00Z");
                 ("incident_type", JStr "Unknown"); ("user_id", JStr "N/A");
                 ("platform", JStr "Unknown"); ("action", JStr "NOTIFY");
                 ("_id", JNum 7); ("date", JStr "2024-01-01T00:00:00Z")] in
  IncidentList.formatIncident entropy 0 e = Normal r
  ∧ own_props v = Some r
  ∧ IncidentList.formatIncident entropy 5 v = Normal r.
Proof.
  intros e r v.
  assert (IncidentList.formatIncident entropy 0 e = Normal r) as He
    by reflexivity.
  assert (own_props v = Some r) as Hv by (vm_compute; reflexivity).
  destruct (C8_normalisation_idempotent entropy 0 entropy 5%nat) as (_ & Hagain).
  split; [exact He | split; [exact Hv |]].
  exact (Hagain e r v He Hv).
Defined.

(** C9 (counterexample).  With incidents 1 and 2 in the list and incident
    1 selected, two invocations of toggleSelectAll end in the empty
    selection, not in the original one; and with the two stale ids 8 and
    9 selected, of which none is in the list, one invocation clears the
    selection instead of selecting the list. *)
Lemma C9_counterexample :
  let st := IncidentList.toggleIncidentSelection (JNum 1) (loaded two_entries) in
  let stale := IncidentList.setSelectedIncidents {[ JNum 8; JNum 9 ]}
                 (loaded two_entries) in
  ids (IncidentList.incidents st) = [JNum 1; JNum 2]
  ∧ IncidentList.selectedIncidents st = {[ JNum 1 ]}
  ∧ IncidentList.selectedIncidents
      (IncidentList.toggleSelectAll (IncidentList.toggleSelectAll st)) = ∅
  ∧ IncidentList.selectedIncidents
      (IncidentList.toggleSelectAll (IncidentList.toggleSelectAll st))
    ≠ IncidentList.selectedIncidents st
  ∧ IncidentList.selectedIncidents (IncidentList.toggleSelectAll stale) = ∅.
Proof.
  intros st stale.
  assert (IncidentList.selectedIncidents
            (IncidentList.toggleSelectAll (IncidentList.toggleSelectAll st)) = ∅)
    as Htwice by (vm_compute; reflexivity).
  assert (IncidentList.selectedIncidents st = {[ JNum 1 ]}) as Hsel
    by (vm_compute; reflexivity).
  split; [vm_compute; reflexivity | split; [exact Hsel | split; [exact Htwice |]]].
  split; [| vm_compute; reflexivity].
  rewrite Htwice, Hsel. intros E.
  assert (JNum 1 ∈ (∅ : gset JsVal)) as Hin
    by (rewrite E; apply elem_of_singleton; reflexivity).
  by apply not_elem_of_empty in Hin.
Qed.

(** C9 at the state holding incidents 1 and 2 with nothing selected. *)
Lemma C9_toggle_select_all_witness :
  let st := loaded two_entries in
  NoDup (ids (IncidentList.incidents st))
  ∧ IncidentList.selectedIncidents st = ∅
  ∧ IncidentList.selectedIncidents (IncidentList.toggleSelectAll st)
    = {[ JNum 1; JNum 2 ]}
  ∧ IncidentList.selectedIncidents
      (IncidentList.toggleSelectAll (IncidentList.toggleSelectAll st))
    = IncidentList.selectedIncidents st.
Proof.
  intros st.
  assert (NoDup (ids (IncidentList.incidents st))) as Hnd by compute_done.
  destruct (C9_toggle_select_all st) as (_ & Hone & Htwice & _).
  split; [exact Hnd | split; [reflexivity | split]].
  - rewrite (Hone Hnd) by (intros x Hx; by apply not_elem_of_empty in Hx).
    vm_compute. reflexivity.
  - apply (Htwice Hnd). left. reflexivity.
Defined.

(** C10 at the state holding incidents 1 and 2, toggling incident 1. *)
Lemma C10_toggle_one_involution_witness :
  let st := loaded two_entries in
  let st' := IncidentList.toggleIncidentSelection (JNum 1) st in
  JNum 2 ≠ JNum 1
  ∧ (JNum 1 ∈ IncidentList.selectedIncidents st'
       ↔ JNum 1 ∉ IncidentList.selectedIncidents st)
  ∧ (JNum 2 ∈ IncidentList.selectedIncidents st'
       ↔ JNum 2 ∈ IncidentList.selectedIncidents st)
  ∧ IncidentList.toggleIncidentSelection (JNum 1) st' = st.
Proof.
  intros st st'.
  destruct (C10_toggle_one_involution (JNum 1)) as (Hmain & _).
  destruct (Hmain st) as (Hid & Hother & Hback).
  assert (JNum 2 ≠ JNum 1) as Hne by discriminate.
  split; [exact Hne | split; [exact Hid | split; [exact (Hother _ Hne) | exact Hback]]].
Defined.

End samples.

(** * Further properties of the components *)

(** ** What normalisation keeps and where it looks *)

Section normalisation_more.
Context `{Runtime}.
Import IncidentList.

Lemma formattedIncidents_ids ent i entries :
  Forall (λ e, ∃ p, own_props e = Some p ∧ is_Some (p !! "id")) entries →
  ∃ incs, formattedIncidents ent i entries = Normal incs
          ∧ ids incs = (λ e, opt_get e "id") <$> entries.
Proof.
  intros Hall. revert i.
  induction Hall as [| e entries (p & Hp & [v Hv]) _ IH]; intros i; simpl.
  - by exists [].
  - unfold formatIncident. rewrite Hp. simpl.
    destruct (IH (S i)) as (incs & -> & Hids). simpl.
    eexists. split; [reflexivity |]. simpl. rewrite Hids. f_equal.
    unfold opt_get, prop. by rewrite Hp, formatProps_lookup, Hv.
Qed.

(** X1.  The record made from an entry holds every property of the entry
    with the value the entry gives it, and its property names are those
    of the entry together with the six canonical names: normalisation
    drops no upstream property and alters none. *)
Theorem normalisation_retains_upstream ent i e p r :
  own_props e = Some p →
  formatIncident ent i e = Normal r →
  (∀ k v, p !! k = Some v → r !! k = Some v)
  ∧ dom r
    = dom p ∪ ({[ "id"; "timestamp"; "incident_type"; "user_id";
                 "platform"; "action" ]} : gset string).
Proof.
  intros Hp (p' & Hp' & ->)%formatIncident_Normal.
  rewrite Hp in Hp'. simplify_eq. split.
  - intros k v Hk. by rewrite formatProps_lookup, Hk.
  - unfold formatProps. by rewrite dom_union_L, canonical_dom.
Qed.

(** X2.  When every entry of a bare array has an id property, the ids of
    the incidents are the ids of the entries, in the order of the entries
    and as often as they occur: normalisation neither reorders nor
    removes entries that share an id. *)
Theorem normalisation_keeps_ids_in_order ent entries :
  Forall (λ e, ∃ p, own_props e = Some p ∧ is_Some (p !! "id")) entries →
  ∃ incs, normalize ent (JArr entries) = Normal incs
          ∧ length incs = length entries
          ∧ ids incs = (λ e, opt_get e "id") <$> entries.
Proof.
  intros Hall. unfold normalize. simpl.
  destruct (formattedIncidents_ids ent 0 entries Hall) as (incs & Hn & Hids).
  exists incs. split; [exact Hn | split; [| exact Hids]].
  rewrite <- (length_fmap (λ inc, prop inc "id") incs).
  fold (ids incs). by rewrite Hids, length_fmap.
Qed.

(** X3.  The wrappers are tried in the order incidents, data, results, and
    a wrapper counts only if it holds an array: the array under incidents
    is taken whatever else the object holds; the array under data is
    taken when incidents holds no array; the array under results when
    neither incidents nor data does.  An empty array counts. *)
Theorem wrapper_priority fields l :
  let get := prop (list_to_map fields) in
  (get "incidents" = JArr l → incidentsData (JObj fields) = Normal l)
  ∧ (Array_isArray (get "incidents") = false → get "data" = JArr l →
     incidentsData (JObj fields) = Normal l)
  ∧ (Array_isArray (get "incidents") = false →
     Array_isArray (get "data") = false → get "results" = JArr l →
     incidentsData (JObj fields) = Normal l).
Proof.
  intros get. unfold incidentsData. cbn [Array_isArray].
  rewrite !js_get_object. cbn [mbind Completion_bind]. fold get.
  split; [| split].
  - by intros ->.
  - intros Hi ->. by rewrite (not_array_probe _ Hi).
  - intros Hi Hd ->. by rewrite (not_array_probe _ Hi), (not_array_probe _ Hd).
Qed.

End normalisation_more.

(** ** Polls, events and the screen *)

Section lifecycle.
Context `{Runtime}.
Import IncidentList.

Lemma fetchIncidents_loading ent resp st :
  loading (fetchIncidents ent resp st) = false.
Proof. reflexivity. Qed.

(** X4.  A poll, whatever its outcome, ends with the loading flag off and
    touches neither the selection set nor the sort configuration, in both
    fetching variants: ids selected before a refresh stay selected after
    it, also when the new list no longer has them. *)
Theorem poll_keeps_selection_and_sort ent resp :
  (∀ st,
     selectedIncidents (fetchIncidents ent resp st) = selectedIncidents st
     ∧ sortConfig (fetchIncidents ent resp st) = sortConfig st
     ∧ loading (fetchIncidents ent resp st) = false)
  ∧ (∀ st,
       IncidentListV1.selectedIncidents (IncidentListV1.fetchIncidents resp st)
       = IncidentListV1.selectedIncidents st
       ∧ IncidentListV1.sortConfig (IncidentListV1.fetchIncidents resp st)
         = IncidentListV1.sortConfig st
       ∧ IncidentListV1.loading (IncidentListV1.fetchIncidents resp st) = false).
Proof.
  split; intros st.
  - destruct (fetchIncidents_keeps_view_state ent resp st) as (Hs & Hc). auto.
  - unfold IncidentListV1.fetchIncidents.
    destruct resp as [data | err]; simpl.
    + unfold IncidentListV1.fetched, js_get.
      destruct (own_props data); simpl; [auto |].
      unfold IncidentListV1.caught, js_get. simpl. auto.
    + unfold IncidentListV1.caught, js_get.
      destruct (own_props err); simpl; auto.
Qed.

(** X5.  The poll that succeeds last wins: the state after a successful
    poll does not depend on what an earlier poll left in the list, the
    error and the loading flag. *)
Theorem last_successful_poll_wins ent ent' data resp' incs st :
  normalize ent data = Normal incs →
  fetchIncidents ent (Resolved data) (fetchIncidents ent' resp' st)
  = fetchIncidents ent (Resolved data) st
  ∧ incidents (fetchIncidents ent (Resolved data) st) = incs
  ∧ error (fetchIncidents ent (Resolved data) st) = JNull.
Proof.
  intros Hn. rewrite !(fetchIncidents_resolved _ _ _ _ Hn).
  destruct (fetchIncidents_keeps_view_state ent' resp' st) as (Hs & Hc).
  unfold setLoading, setError, setIncidents.
  cbn [incidents loading error selectedIncidents sortConfig].
  rewrite Hs, Hc. auto.
Qed.

Lemma step_mounted st e : mounted st → mounted (step st e).
Proof.
  unfold mounted. intros Hst. destruct e as [ent resp | k | id |]; cbn [step].
  - rewrite fetchIncidents_loading. discriminate.
  - exact Hst.
  - exact Hst.
  - unfold toggleSelectAll. by destruct (_ && _).
Qed.

Lemma run_mounted st events : mounted st → mounted (run st events).
Proof.
  revert st. induction events as [| e events IH]; intros st Hst; simpl;
    [exact Hst |].
  apply IH, step_mounted, Hst.
Qed.

(** X6.  In every state the component reaches from its mount, through
    polls and clicks in any order, the loading flag is on only while the
    list is empty and no error is set: a second poll never brings the
    flag back.  So whenever the table is on screen the refresh button is
    enabled and the indicator of an update in progress is hidden. *)
Theorem loading_only_before_first_poll events :
  let st := run initial events in
  (loading st = true → incidents st = [] ∧ error st = JNull)
  ∧ ∀ t, render st = IncidentTable t →
      refresh_disabled t = false ∧ updating_indicator t = false.
Proof.
  intros st.
  assert (mounted st) as Hst by (apply run_mounted; intros _; by split).
  split; [exact Hst |]. intros t. unfold render.
  destruct (loading st) eqn:Hl.
  - destruct (Hst Hl) as (Hinc & _). rewrite Hinc. simpl. discriminate.
  - simpl. destruct (truthy (error st) && _); [discriminate |].
    by intros [= <-].
Qed.




End lifecycle.

(** ** Sorting and selecting by hand *)

Ltac membership :=
  repeat first [ rewrite elem_of_union | rewrite elem_of_difference
               | rewrite elem_of_singleton ];
  intuition congruence.

Lemma toggled_commute (a b : JsVal) (sel : gset JsVal) :
  let toggled id s := if decide (id ∈ s) then s ∖ {[ id ]} else s ∪ {[ id ]} in
  toggled a (toggled b sel) = toggled b (toggled a sel).
Proof.
  intros toggled. unfold toggled.
  destruct (decide (a = b)) as [-> | Hab]; [reflexivity |].
  assert (b ≠ a) as Hba by congruence.
  destruct (decide (b ∈ sel)) as [Hb | Hb], (decide (a ∈ sel)) as [Ha | Ha].
  - rewrite decide_True by membership. rewrite decide_True by membership.
    apply set_eq. intros x. membership.
  - rewrite decide_False by membership. rewrite decide_True by membership.
    apply set_eq. intros x. destruct (decide (x = a)) as [-> |]; membership.
  - rewrite decide_True by membership. rewrite decide_False by membership.
    apply set_eq. intros x. destruct (decide (x = b)) as [-> |]; membership.
  - rewrite decide_False by membership. rewrite decide_False by membership.
    apply set_eq. intros x. membership.
Qed.

Section interaction.
Context `{Runtime}.
Import IncidentList.

(** X8.  handleSort sets the key to the column clicked; a column other
    than the current one starts ascending, the current column changes
    direction; it touches neither the list nor the selection.  Two
    further clicks on the column just clicked return to the same
    configuration, and two clicks on the current column show the view
    that was shown before. *)
Theorem handleSort_cycles k st :
  let st1 := handleSort k st in
  key (sortConfig st1) = k
  ∧ (key (sortConfig st) ≠ k → direction (sortConfig st1) = asc)
  ∧ (key (sortConfig st) = k →
     direction (sortConfig st1)
     = match direction (sortConfig st) with asc => desc | desc => asc end)
  ∧ incidents st1 = incidents st
  ∧ selectedIncidents st1 = selectedIncidents st
  ∧ handleSort k (handleSort k st1) = st1
  ∧ (key (sortConfig st) = k →
     sortedIncidents (handleSort k st1) = sortedIncidents st).
Proof.
  destruct st as [incs ld err sel [k0 d0]].
  unfold handleSort, setSortConfig, sortedIncidents.
  cbn [incidents loading error selectedIncidents sortConfig key direction].
  destruct (decide (k0 = k)) as [-> | Hne], d0;
    repeat (case_decide; cbn [key direction] in *);
    repeat split; try done; try (intros; congruence); try tauto;
    repeat match goal with Hc : _ ∧ _ |- _ => destruct Hc end; congruence.
Qed.

(** X9.  Toggling two incidents gives the same selection in either order,
    and one toggle changes the count shown as selected by exactly one: up
    when the id was not selected, down when it was. *)
Theorem toggles_commute_and_count a b st :
  toggleIncidentSelection a (toggleIncidentSelection b st)
  = toggleIncidentSelection b (toggleIncidentSelection a st)
  ∧ (a ∉ selectedIncidents st →
     size (selectedIncidents (toggleIncidentSelection a st))
     = S (size (selectedIncidents st)))
  ∧ (a ∈ selectedIncidents st →
     S (size (selectedIncidents (toggleIncidentSelection a st)))
     = size (selectedIncidents st)).
Proof.
  destruct st as [incs ld err sel cfg].
  unfold toggleIncidentSelection, setSelectedIncidents.
  cbn [incidents loading error selectedIncidents sortConfig].
  split; [| split].
  - f_equal. apply toggled_commute.
  - intros Hout. rewrite decide_False by done.
    rewrite size_union by (apply disjoint_singleton_r; done).
    rewrite size_singleton. lia.
  - intros Hin. rewrite decide_True by done.
    rewrite size_difference by (by apply singleton_subseteq_l).
    rewrite size_singleton.
    assert (size sel ≠ 0)%nat by (intros ?%size_empty_inv; set_solver).
    lia.
Qed.

Lemma size_list_to_set_le (l : list JsVal) :
  (size (list_to_set l : gset JsVal) ≤ length l)%nat.
Proof.
  induction l as [| x l IH].
  - change (size (∅ : gset JsVal) ≤ 0)%nat. by rewrite size_empty.
  - rewrite list_to_set_cons. cbn [length].
    rewrite size_union_alt, size_singleton.
    etrans; [| apply le_n_S, IH].
    apply le_n_S, subseteq_size, subseteq_difference_l. done.
Qed.

Lemma size_list_to_set_NoDup (l : list JsVal) :
  size (list_to_set l : gset JsVal) = length l → NoDup l.
Proof.
  induction l as [| x l IH]; [constructor |].
  rewrite list_to_set_cons. cbn [length].
  intros Hsize. pose proof (size_list_to_set_le l) as Hle.
  destruct (decide (x ∈ l)) as [Hin | Hout].
  - assert ({[ x ]} ∪ list_to_set l = (list_to_set l : gset JsVal)) as E
      by (apply set_eq; intros y; rewrite elem_of_union, elem_of_singleton,
            elem_of_list_to_set; split; [intros [-> |]; done | auto]).
    rewrite E in Hsize. lia.
  - constructor; [exact Hout |]. apply IH.
    rewrite size_union in Hsize
      by (apply disjoint_singleton_l; by rewrite elem_of_list_to_set).
    rewrite size_singleton in Hsize. lia.
Qed.

(** X10.  With distinct ids in a list that is not empty, a click on the
    header checkbox changes what it shows: checked becomes unchecked and
    unchecked becomes checked.  When two incidents of the list share an
    id and the selection holds ids of the list only, the checkbox is
    never shown checked, and a click selects all ids and never clears
    them. *)
Theorem select_all_checkbox st :
  let checked s :=
    bool_decide (0 < length (incidents s))%nat
    && bool_decide (size (selectedIncidents s) = length (incidents s)) in
  (∀ t, render st = IncidentTable t → select_all_checked t = checked st)
  ∧ (incidents st ≠ [] → NoDup (ids (incidents st)) →
     checked (toggleSelectAll st) = negb (checked st))
  ∧ (¬ NoDup (ids (incidents st)) →
     selectedIncidents st ⊆ list_to_set (ids (incidents st)) →
     checked st = false
     ∧ selectedIncidents (toggleSelectAll st)
       = list_to_set (ids (incidents st))
     ∧ checked (toggleSelectAll st) = false).
Proof.
  intros checked. split; [| split].
  - intros t. unfold render.
    destruct (loading st && _); [discriminate |].
    destruct (truthy (error st) && _); [discriminate |]. by intros [= <-].
  - intros Hne Hnd. unfold checked.
    rewrite toggleSelectAll_incidents, toggleSelectAll_selected.
    pose proof (size_all_ids _ Hnd) as Hall.
    assert (0 < length (incidents st))%nat as Hlen
      by (destruct (incidents st); simpl; [done | lia]).
    rewrite (bool_decide_eq_true_2 _ Hlen), andb_true_r. simpl.
    destruct (decide (size (selectedIncidents st) = length (incidents st)))
      as [E | E].
    + rewrite (bool_decide_eq_true_2 _ E). cbn [andb negb]. rewrite size_empty.
      rewrite bool_decide_eq_false_2 by lia. reflexivity.
    + rewrite (bool_decide_eq_false_2 _ E). cbn [andb negb]. rewrite Hall.
      by rewrite bool_decide_eq_true_2.
  - intros Hdup Hsub.
    assert (size (list_to_set (ids (incidents st)) : gset JsVal)
            ≠ length (incidents st)) as Hall.
    { intros E. apply Hdup, size_list_to_set_NoDup.
      unfold ids in *. by rewrite length_fmap. }
    pose proof (size_list_to_set_le (ids (incidents st))) as Hle.
    unfold ids in Hle at 2. rewrite length_fmap in Hle.
    pose proof (subseteq_size _ _ Hsub) as Hsel.
    assert (size (selectedIncidents st) ≠ length (incidents st)) as Hne by lia.
    unfold checked.
    rewrite toggleSelectAll_incidents, toggleSelectAll_selected.
    rewrite !(bool_decide_eq_false_2 _ Hne). simpl.
    rewrite (bool_decide_eq_false_2 _ Hall), !andb_false_r. done.
Qed.

End interaction.

(** ** The sorted view as a whole *)

Section stable_sort_more.
Context {A : Type}.

Lemma js_insertM_Permutation (cmp : A → A → Completion (option Z)) x s s' :
  js_insertM cmp x s = Normal s' → s' ≡ₚ x :: s.
Proof.
  revert s'. induction s as [| y s IH]; intros s'; simpl.
  - by intros [= <-].
  - destruct (cmp x y) as [v | e]; simpl; [| discriminate].
    destruct (comes_after v).
    + destruct (js_insertM cmp x s) as [r | e]; simpl; [| discriminate].
      intros [= <-]. rewrite (IH r eq_refl). apply Permutation_swap.
    + by intros [= <-].
Qed.

Lemma js_sortM_Permutation (cmp : A → A → Completion (option Z)) l l' :
  js_sortM cmp l = Normal l' → l' ≡ₚ l.
Proof.
  revert l'. induction l as [| x l IH]; intros l'; simpl.
  - by intros [= <-].
  - destruct (js_sortM cmp l) as [s | e]; simpl; [| discriminate].
    intros Hins%js_insertM_Permutation. by rewrite Hins, (IH s eq_refl).
Qed.

(** Elements of a class within which no element comes after another keep
    their order. *)
Context (cmp : A → A → option Z) (P : A → Prop) `{!∀ x, Decision (P x)}.

Lemma js_insert_filter x s :
  (∀ y, y ∈ s → P x → P y → comes_after (cmp x y) = false) →
  filter P (js_insert cmp x s) = filter P (x :: s).
Proof.
  induction s as [| y s IH]; intros Hties; simpl; [reflexivity |].
  destruct (comes_after (cmp x y)) eqn:E; [| reflexivity].
  rewrite filter_cons, IH by (intros z Hz; apply Hties; by right).
  rewrite !filter_cons.
  destruct (decide (P x)) as [Hx |], (decide (P y)) as [Hy |]; try reflexivity.
  rewrite (Hties y) in E by (done || by left). discriminate.
Qed.

Lemma js_sort_filter l :
  (∀ x y, x ∈ l → y ∈ l → P x → P y → comes_after (cmp x y) = false) →
  filter P (js_sort cmp l) = filter P l.
Proof.
  induction l as [| x l IH]; intros Hties; simpl; [reflexivity |].
  rewrite js_insert_filter.
  - rewrite !filter_cons, IH; [reflexivity |].
    intros y z Hy Hz. apply Hties; by right.
  - intros y Hy. rewrite js_sort_Permutation in Hy.
    apply Hties; [by left | by right].
Qed.

End stable_sort_more.

Section sorted_view_more.
Context `{Runtime}.
Import IncidentList.

(** X11.  The sorted view holds exactly the incidents of the list, each as
    often as the list holds it, whatever the key and the direction: the
    sort drops and invents no row.  In the variant that stores the
    payload as it is this holds whenever the sort returns. *)
Theorem sorted_view_is_permutation :
  (∀ st, sortedIncidents st ≡ₚ incidents st
         ∧ length (sortedIncidents st) = length (incidents st))
  ∧ (∀ st l,
       IncidentListV1.sortedIncidents st = Normal l →
       (∃ entries, IncidentListV1.incidents st = JArr entries ∧ l ≡ₚ entries)
       ∨ (∃ s, IncidentListV1.incidents st = JStr s ∧ l ≡ₚ chars s)).
Proof.
  split.
  - intros st.
    assert (sortedIncidents st ≡ₚ incidents st) as Hp.
    { unfold sortedIncidents. case_bool_decide; [| reflexivity].
      apply js_sort_Permutation. }
    split; [exact Hp | by rewrite Hp].
  - intros st l. unfold IncidentListV1.sortedIncidents.
    destruct (IncidentListV1.incidents st) as [| | b | n | s | entries | fs];
      simpl; try discriminate.
    + intros Hl%js_sortM_Permutation. right. eauto.
    + intros Hl%js_sortM_Permutation. left. eauto.
Qed.

(** X12.  When every timestamp of the list is parsable, the view sorted by
    timestamp ascending runs from the earliest time value to the latest,
    and the view sorted descending from the latest to the earliest. *)
Theorem sorted_view_is_ordered st :
  Forall (λ a, is_Some (timestamp_time a)) (incidents st) →
  StronglySorted (λ a b, (time_key a ≤ time_key b)%Z)
    (sortedIncidents (by_timestamp asc st))
  ∧ StronglySorted (λ a b, (time_key b ≤ time_key a)%Z)
      (sortedIncidents (by_timestamp desc st)).
Proof.
  intros Hall. rewrite !sortedIncidents_by_timestamp. split.
  - apply (js_sort_sorted _ time_key). intros x y. by apply comes_after_asc.
  - apply (StronglySorted_weaken (λ x y, (- time_key x ≤ - time_key y)%Z)).
    { intros x y. lia. }
    apply (js_sort_sorted _ (λ a, - time_key a)%Z).
    intros x y. by apply comes_after_desc.
Qed.

(** X13.  When every timestamp of the list is parsable, incidents whose
    timestamps have the same time value appear in the view sorted by
    timestamp, in either direction, in the order in which the list holds
    them. *)
Theorem sorted_view_is_stable d t st :
  Forall (λ a, is_Some (timestamp_time a)) (incidents st) →
  filter (λ a, timestamp_time a = Some t) (sortedIncidents (by_timestamp d st))
  = filter (λ a, timestamp_time a = Some t) (incidents st).
Proof.
  intros _. rewrite sortedIncidents_by_timestamp.
  apply js_sort_filter. intros x y _ _ Hx Hy.
  rewrite compare_by_timestamp, Hx, Hy. destruct d; simpl;
    by rewrite Z.sub_diag.
Qed.

End sorted_view_more.

(** ** Severity of a row and the address to investigate *)

Lemma String_startsWith_spec s t :
  String_startsWith s t = true ↔ ∃ post, s = t +:+ post.
Proof.
  revert s. induction t as [| c t IH]; intros s; simpl.
  - destruct s; split; eauto.
  - destruct s as [| d s]; simpl.
    + split; [discriminate | intros (post & [=])].
    + rewrite andb_true_iff, bool_decide_eq_true, IH. split.
      * intros (-> & post & ->). eauto.
      * intros (post & [= -> ->]). eauto.
Qed.

Lemma String_includes_spec s t :
  String_includes s t = true ↔ ∃ pre post, s = pre +:+ t +:+ post.
Proof.
  induction s as [| d s IH]; cbn [String_includes].
  - rewrite orb_false_r, String_startsWith_spec. split.
    + intros (post & ->). by exists "", post.
    + intros ([| c pre] & post & E); [eauto | discriminate].
  - rewrite orb_true_iff, IH, String_startsWith_spec. split.
    + intros [(post & ->) | (pre & post & ->)].
      * by exists "", post.
      * by exists (String d pre), post.
    + intros ([| c pre] & post & E); simpl in E.
      * left. eauto.
      * injection E as -> ->. right. eauto.
Qed.

Lemma String_length_app s t :
  String.length (s +:+ t) = (String.length s + String.length t)%nat.
Proof. induction s as [| c s IH]; simpl; [reflexivity | by rewrite IH]. Qed.

Lemma String_app_inv_tail s1 s2 t : s1 +:+ t = s2 +:+ t → s1 = s2.
Proof.
  revert s2. induction s1 as [| c s1 IH]; intros [| d s2] E; simpl in E.
  - reflexivity.
  - apply (f_equal String.length) in E.
    rewrite !String_length_app in E. simpl in E. lia.
  - apply (f_equal String.length) in E.
    rewrite !String_length_app in E. simpl in E. lia.
  - injection E as -> E. f_equal. by apply IH.
Qed.

Section rows.
Context `{Runtime}.
Import IncidentListV1.

Lemma mentions_one s kw :
  mentions s [kw] ↔ ∃ pre post, s = pre +:+ kw +:+ post.
Proof.
  unfold mentions. split.
  - intros (k & pre & post & Hk & ->).
    apply list_elem_of_singleton in Hk as ->. eauto.
  - intros (pre & post & ->). exists kw, pre, post.
    split; [by apply list_elem_of_singleton | done].
Qed.

Lemma mentions_cons s kw kws :
  mentions s (kw :: kws)
  ↔ (∃ pre post, s = pre +:+ kw +:+ post) ∨ mentions s kws.
Proof.
  unfold mentions. split.
  - intros (k & pre & post & Hk & ->).
    apply elem_of_cons in Hk as [-> | Hk]; [left; eauto | right; eauto 6].
  - intros [(pre & post & ->) | (k & pre & post & Hk & ->)].
    + exists kw, pre, post. split; [by left | done].
    + exists k, pre, post. split; [by right | done].
Qed.

Lemma mentions_nil s : ¬ mentions s [].
Proof. by intros (k & pre & post & ?%elem_of_nil & _). Qed.

(** X14.  In the variant that stores the payload as it is, a type that is
    a string has severity high when one of the words ИНН, СНИЛС and
    Банковская карта occurs anywhere in it, also when a word of the
    medium class occurs too; otherwise medium when Email or Телефон
    occurs in it; otherwise low.  The words are matched with their case.
    An entry without incident_type makes the computation of the row
    throw. *)
Theorem severity_by_keyword :
  (∀ s, mentions s high_words → getSeverityClass (JStr s) = Normal high)
  ∧ (∀ s, ¬ mentions s high_words → mentions s medium_words →
       getSeverityClass (JStr s) = Normal medium)
  ∧ (∀ s, ¬ mentions s high_words → ¬ mentions s medium_words →
       getSeverityClass (JStr s) = Normal low)
  ∧ (∀ e p, own_props e = Some p → p !! "incident_type" = None →
       row_severity e = Throw (TypeError JUndefined "includes")).
Proof.
  assert (∀ s, getSeverityClass (JStr s)
               = Normal (if String_includes s "ИНН"
                            || String_includes s "СНИЛС"
                            || String_includes s "Банковская карта"
                         then high
                         else if String_includes s "Email"
                                 || String_includes s "Телефон"
                              then medium else low)) as Hcalc.
  { intros s. unfold getSeverityClass. simpl.
    destruct (String_includes s "ИНН"); simpl; [reflexivity |].
    destruct (String_includes s "СНИЛС"); simpl; [reflexivity |].
    destruct (String_includes s "Банковская карта"); simpl; [reflexivity |].
    destruct (String_includes s "Email"); simpl; [reflexivity |].
    by destruct (String_includes s "Телефон"). }
  assert (∀ s, String_includes s "ИНН" || String_includes s "СНИЛС"
               || String_includes s "Банковская карта" = true
               ↔ mentions s high_words) as Hhigh.
  { intros s. unfold high_words.
    rewrite !mentions_cons, !orb_true_iff, !String_includes_spec.
    pose proof (mentions_nil s). tauto. }
  assert (∀ s, String_includes s "Email" || String_includes s "Телефон" = true
               ↔ mentions s medium_words) as Hmedium.
  { intros s. unfold medium_words.
    rewrite !mentions_cons, !orb_true_iff, !String_includes_spec.
    pose proof (mentions_nil s). tauto. }
  split; [| split; [| split]].
  - intros s Hs%Hhigh. by rewrite Hcalc, Hs.
  - intros s Hno Hs%Hmedium. rewrite <- Hhigh in Hno.
    apply not_true_is_false in Hno. by rewrite Hcalc, Hno, Hs.
  - intros s Hno Hno'. rewrite <- Hhigh in Hno. rewrite <- Hmedium in Hno'.
    apply not_true_is_false in Hno, Hno'. by rewrite Hcalc, Hno, Hno'.
  - intros e p Hp Hnone. unfold row_severity, js_get, prop.
    by rewrite Hp, Hnone.
Qed.

(** X15.  For ids that are strings, the address opened to investigate an
    incident carries the id as it is, and two ids that differ give two
    addresses that differ. *)
Theorem kibanaUrl_injective :
  (∀ id, mentions (kibanaUrl id) [id])
  ∧ (∀ a b, kibanaUrl a = kibanaUrl b → a = b).
Proof.
  split.
  - intros id. apply mentions_one. unfold kibanaUrl. eauto.
  - intros a b. unfold kibanaUrl. intros E.
    apply (inj (String.app _)) in E. by apply String_app_inv_tail in E.
Qed.

End rows.

(** ** What the table counts and what the trusting variant stores *)

Lemma checked_rows_filter (sel : gset JsVal) (l : list Incident) :
  length (filter (λ row : Incident * bool, row.2 = true)
            ((λ incident, (incident, bool_decide (prop incident "id" ∈ sel)))
               <$> l))
  = length (filter (λ incident, prop incident "id" ∈ sel) l).
Proof.
  induction l as [| x l IH]; [reflexivity |].
  rewrite fmap_cons, !filter_cons. cbn [snd].
  destruct (decide (prop x "id" ∈ sel)) as [Hin | Hout].
  - rewrite bool_decide_eq_true_2 by done.
    rewrite decide_True by done. simpl. by rewrite IH.
  - rewrite bool_decide_eq_false_2 by done.
    rewrite decide_False by done. exact IH.
Qed.

Lemma selected_in_list (sel : gset JsVal) (l : list Incident) :
  NoDup (ids l) →
  length (filter (λ incident, prop incident "id" ∈ sel) l)
  = size (sel ∩ list_to_set (ids l)).
Proof.
  induction l as [| x l IH]; intros Hnd.
  - change (ids []) with (@nil JsVal).
    rewrite list_to_set_nil, intersection_empty_r_L, size_empty. reflexivity.
  - change (ids (x :: l)) with (prop x "id" :: ids l) in *.
    apply NoDup_cons in Hnd as [Hx Hnd].
    rewrite filter_cons, list_to_set_cons.
    destruct (decide (prop x "id" ∈ sel)) as [Hin | Hout].
    + assert (sel ∩ ({[ prop x "id" ]} ∪ list_to_set (ids l))
              = {[ prop x "id" ]} ∪ sel ∩ (list_to_set (ids l) : gset JsVal))
        as -> by (apply set_eq; intros y;
                  rewrite !elem_of_intersection, !elem_of_union,
                    elem_of_intersection, elem_of_singleton;
                  intuition congruence).
      rewrite size_union, size_singleton.
      * simpl. by rewrite IH.
      * apply disjoint_singleton_l. rewrite elem_of_intersection,
          elem_of_list_to_set. tauto.
    + assert (sel ∩ ({[ prop x "id" ]} ∪ list_to_set (ids l))
              = sel ∩ (list_to_set (ids l) : gset JsVal))
        as -> by (apply set_eq; intros y;
                  rewrite !elem_of_intersection, elem_of_union,
                    elem_of_singleton;
                  intuition congruence).
      by apply IH.
Qed.

Section counts.
Context `{Runtime}.
Import IncidentList.

(** X16.  The table shows one row for each incident of the list.  With
    distinct ids in the list, the rows shown checked are as many as the
    selected ids that the list holds: as many as the header counts as
    selected when the selection holds ids of the list only, and fewer
    when it holds an id that the list no longer has. *)
Theorem checked_rows_and_count st t :
  render st = IncidentTable t →
  length (rows t) = count_total t
  ∧ (NoDup (ids (incidents st)) →
     let checked :=
       length (filter (λ row : Incident * bool, row.2 = true) (rows t)) in
     checked
     = size (selectedIncidents st ∩ list_to_set (ids (incidents st)))
     ∧ (selectedIncidents st ⊆ list_to_set (ids (incidents st)) →
        checked = count_selected t)
     ∧ (selectedIncidents st ⊈ list_to_set (ids (incidents st)) →
        (checked < count_selected t)%nat)).
Proof.
  unfold render.
  destruct (loading st && _); [discriminate |].
  destruct (truthy (error st) && _); [discriminate |]. intros [= <-]. simpl.
  assert (sortedIncidents st ≡ₚ incidents st) as Hp.
  { unfold sortedIncidents. case_bool_decide; [| reflexivity].
    apply js_sort_Permutation. }
  split; [by rewrite length_fmap, Hp |].
  intros Hnd.
  assert (length
            (filter (λ row : Incident * bool, row.2 = true)
               ((λ incident,
                   (incident,
                    bool_decide (prop incident "id" ∈ selectedIncidents st)))
                  <$> sortedIncidents st))
          = size (selectedIncidents st ∩ list_to_set (ids (incidents st))))
    as Hcount.
  { rewrite checked_rows_filter, Hp. by apply selected_in_list. }
  rewrite Hcount. split; [reflexivity | split].
  - intros Hsub. f_equal. apply set_eq. intros x.
    rewrite elem_of_intersection. split; [tauto | auto].
  - intros Hstale. apply subset_size. split.
    + apply intersection_subseteq_l.
    + intros Hsub. apply Hstale. intros x Hx.
      by apply Hsub, elem_of_intersection in Hx as [_ ?].
Qed.

(** X17.  The variant that stores the payload as it is keeps under
    incidents whatever the payload holds there and clears the error: the
    empty list when the payload holds nothing truthy there, and a truthy
    value that is neither an array nor a string as it is, which the
    sorted view cannot spread, so that it throws. *)
Theorem trusting_variant_stores_payload data p st :
  own_props data = Some p →
  let st' := IncidentListV1.fetchIncidents (Resolved data) st in
  IncidentListV1.incidents st' = prop p "incidents" <||> JArr []
  ∧ IncidentListV1.error st' = JNull
  ∧ (truthy (prop p "incidents") = false →
     IncidentListV1.incidents st' = JArr []
     ∧ IncidentListV1.sortedIncidents st' = Normal [])
  ∧ (∀ v, prop p "incidents" = v → truthy v = true →
       match v with JArr _ | JStr _ => False | _ => True end →
       IncidentListV1.sortedIncidents st'
       = Throw (TypeError v "Symbol.iterator")).
Proof.
  intros Hp st'.
  assert (IncidentListV1.incidents st' = prop p "incidents" <||> JArr []
          ∧ IncidentListV1.error st' = JNull) as (Hi & He).
  { subst st'. unfold IncidentListV1.fetchIncidents, IncidentListV1.fetched,
      js_get. rewrite Hp. split; reflexivity. }
  split; [exact Hi | split; [exact He | split]].
  - intros Hfalsy. unfold js_or in Hi. rewrite Hfalsy in Hi.
    split; [exact Hi |].
    unfold IncidentListV1.sortedIncidents. by rewrite Hi.
  - intros v Hv Htruthy Hshape. unfold js_or in Hi.
    rewrite Hv, Htruthy in Hi.
    unfold IncidentListV1.sortedIncidents. rewrite Hi.
    by destruct v.
Qed.

End counts.

(** ** The further properties at sample inputs *)

Section samples_more.
Import Reference Sample.
#[local] Existing Instance Reference.runtime.

(** X1 at the entry [{_id: 7, severity: "high"}]. *)
Lemma normalisation_retains_upstream_witness :
  let e := JObj [("_id", JNum 7); ("severity", JStr "high")] in
  let p : gmap string JsVal :=
    list_to_map [("_id", JNum 7); ("severity", JStr "high")] in
  let r := IncidentList.formatProps entropy 0 p in
  own_props e = Some p
  ∧ IncidentList.formatIncident entropy 0 e = Normal r
  ∧ r !! "severity" = Some (JStr "high")
  ∧ dom r
    = dom p ∪ ({[ "id"; "timestamp"; "incident_type"; "user_id";
                 "platform"; "action" ]} : gset string).
Proof.
  intros e p r.
  destruct (normalisation_retains_upstream entropy 0 e p r eq_refl eq_refl)
    as (Hkeep & Hdom).
  split; [reflexivity | split; [reflexivity | split; [| exact Hdom]]].
  apply Hkeep. reflexivity.
Defined.

(** X2 at two entries that share the id 5. *)
Lemma normalisation_keeps_ids_in_order_witness :
  let entries := [JObj [("id", JNum 5)]; JObj [("id", JNum 5)]] in
  Forall (λ e, ∃ p, own_props e = Some p ∧ is_Some (p !! "id")) entries
  ∧ ∃ incs, IncidentList.normalize entropy (JArr entries) = Normal incs
            ∧ length incs = 2%nat
            ∧ ids incs = [JNum 5; JNum 5].
Proof.
  intros entries.
  assert (Forall (λ e, ∃ p, own_props e = Some p ∧ is_Some (p !! "id")) entries)
    as Hall.
  { repeat constructor; (eexists; split; [reflexivity |]); by eexists. }
  split; [exact Hall |].
  exact (normalisation_keeps_ids_in_order entropy entries Hall).
Defined.

(** X3 at an object with an empty incidents array and a data array. *)
Lemma wrapper_priority_witness :
  let fields := [("data", JArr [JNum 1]); ("incidents", JArr [])] in
  prop (list_to_map fields) "incidents" = JArr []
  ∧ IncidentList.incidentsData (JObj fields) = Normal [].
Proof.
  intros fields.
  destruct (wrapper_priority fields []) as (Hinc & _).
  split; [reflexivity |]. apply Hinc. reflexivity.
Defined.

(** X5 at a poll of two entries after a rejected poll. *)
Lemma last_successful_poll_wins_witness :
  let incs := IncidentList.incidents (loaded two_entries) in
  IncidentList.normalize entropy two_entries = Normal incs
  ∧ IncidentList.fetchIncidents entropy (Resolved two_entries)
      (IncidentList.fetchIncidents entropy (Rejected network_error)
         IncidentList.initial)
    = loaded two_entries.
Proof.
  intros incs.
  assert (IncidentList.normalize entropy two_entries = Normal incs) as Hn
    by (vm_compute; reflexivity).
  split; [exact Hn |].
  exact (proj1 (last_successful_poll_wins entropy entropy two_entries
                  (Rejected network_error) incs IncidentList.initial Hn)).
Defined.

(** X6 at a poll, a click on a header, a rejected poll and a click on the
    header checkbox. *)
Lemma loading_only_before_first_poll_witness :
  let events :=
    [ IncidentList.PollCompleted entropy (Resolved two_entries);
      IncidentList.SortClicked user_id;
      IncidentList.PollCompleted entropy (Rejected network_error);
      IncidentList.SelectAllToggled ] in
  ∃ t, IncidentList.render (IncidentList.run IncidentList.initial events)
       = IncidentList.IncidentTable t
       ∧ IncidentList.refresh_disabled t = false
       ∧ IncidentList.updating_indicator t = false.
Proof.
  intros events.
  destruct (loading_only_before_first_poll events) as (_ & Htable).
  eexists. split; [reflexivity |]. apply Htable. reflexivity.
Defined.


(** X8 at the state on mount, whose sort is by timestamp descending. *)
Lemma handleSort_cycles_witness :
  let st := IncidentList.initial in
  key (IncidentList.sortConfig st) = timestamp
  ∧ direction (IncidentList.sortConfig (IncidentList.handleSort timestamp st))
    = asc
  ∧ key (IncidentList.sortConfig st) ≠ user_id
  ∧ direction (IncidentList.sortConfig (IncidentList.handleSort user_id st))
    = asc
  ∧ IncidentList.sortedIncidents
      (IncidentList.handleSort timestamp (IncidentList.handleSort timestamp st))
    = IncidentList.sortedIncidents st.
Proof.
  intros st.
  destruct (handleSort_cycles timestamp st) as (_ & _ & Hsame & _ & _ & _ & Hview).
  destruct (handleSort_cycles user_id st) as (_ & Hnew & _).
  assert (key (IncidentList.sortConfig st) ≠ user_id) as Hne by discriminate.
  split; [reflexivity | split; [exact (Hsame eq_refl) | split; [exact Hne |]]].
  split; [exact (Hnew Hne) | exact (Hview eq_refl)].
Defined.

(** X9 at the state holding incidents 1 and 2, toggling both. *)
Lemma toggles_commute_and_count_witness :
  let st := loaded two_entries in
  (JNum 1 ∉ IncidentList.selectedIncidents st)
  ∧ size (IncidentList.selectedIncidents
            (IncidentList.toggleIncidentSelection (JNum 1) st)) = 1%nat
  ∧ IncidentList.toggleIncidentSelection (JNum 1)
      (IncidentList.toggleIncidentSelection (JNum 2) st)
    = IncidentList.toggleIncidentSelection (JNum 2)
        (IncidentList.toggleIncidentSelection (JNum 1) st).
Proof.
  intros st.
  destruct (toggles_commute_and_count (JNum 1) (JNum 2) st) as (Hcomm & Hup & _).
  assert (JNum 1 ∉ IncidentList.selectedIncidents st) as Hout
    by apply not_elem_of_empty.
  split; [exact Hout | split; [| exact Hcomm]].
  rewrite (Hup Hout). reflexivity.
Defined.

(** X10 at the state holding incidents 1 and 2 with nothing selected. *)
Lemma select_all_checkbox_witness :
  let st := loaded two_entries in
  IncidentList.incidents st ≠ []
  ∧ NoDup (ids (IncidentList.incidents st))
  ∧ ∃ t t',
      IncidentList.render st = IncidentList.IncidentTable t
      ∧ IncidentList.render (IncidentList.toggleSelectAll st)
        = IncidentList.IncidentTable t'
      ∧ IncidentList.select_all_checked t = false
      ∧ IncidentList.select_all_checked t' = true.
Proof.
  intros st.
  assert (IncidentList.incidents st ≠ []) as Hne by (vm_compute; discriminate).
  assert (NoDup (ids (IncidentList.incidents st))) as Hnd by compute_done.
  destruct (select_all_checkbox st) as (Hshown & Hflip & _).
  destruct (select_all_checkbox (IncidentList.toggleSelectAll st))
    as (Hshown' & _ & _).
  split; [exact Hne | split; [exact Hnd |]].
  eexists _, _. split; [reflexivity | split; [reflexivity |]].
  split.
  - rewrite (Hshown _ eq_refl). vm_compute. reflexivity.
  - rewrite (Hshown' _ eq_refl), (Hflip Hne Hnd). vm_compute. reflexivity.
Defined.

(** X11 at the trusting variant holding two entries, sorted by user. *)
Lemma sorted_view_is_permutation_witness :
  let st := IncidentListV1.setSortConfig {| key := user_id; direction := asc |}
              (IncidentListV1.fetchIncidents
                 (Resolved (JObj [("incidents",
                                   JArr [JObj [("user_id", JStr "bob")];
                                         JObj [("user_id", JStr "alice")]])]))
                 IncidentListV1.initial) in
  IncidentListV1.sortedIncidents st
  = Normal [JObj [("user_id", JStr "alice")]; JObj [("user_id", JStr "bob")]]
  ∧ [JObj [("user_id", JStr "alice")]; JObj [("user_id", JStr "bob")]]
    ≡ₚ [JObj [("user_id", JStr "bob")]; JObj [("user_id", JStr "alice")]].
Proof.
  intros st.
  assert (IncidentListV1.sortedIncidents st
          = Normal [JObj [("user_id", JStr "alice")];
                    JObj [("user_id", JStr "bob")]]) as Hsorted
    by (vm_compute; reflexivity).
  split; [exact Hsorted |].
  destruct sorted_view_is_permutation as (_ & Hv1).
  destruct (Hv1 st _ Hsorted) as [(entries & Hst & Hp) | (s & Hst & _)].
  - vm_compute in Hst. injection Hst as <-. exact Hp.
  - vm_compute in Hst. discriminate.
Defined.

(** X12 at the state holding two incidents with distinct dates. *)
Lemma sorted_view_is_ordered_witness :
  let st := loaded two_dated in
  Forall (λ a, is_Some (timestamp_time a)) (IncidentList.incidents st)
  ∧ StronglySorted (λ a b, (time_key b ≤ time_key a)%Z)
      (IncidentList.sortedIncidents (by_timestamp desc st))
  ∧ ids (IncidentList.sortedIncidents (by_timestamp desc st))
    = [JNum 2; JNum 1].
Proof.
  intros st.
  assert (Forall (λ a, is_Some (timestamp_time a)) (IncidentList.incidents st))
    as Hall by (repeat constructor; by eexists).
  split; [exact Hall | split].
  - exact (proj2 (sorted_view_is_ordered st Hall)).
  - vm_compute. reflexivity.
Defined.

(** X13 at a poll of three entries of which the first and the last bear
    the same date. *)
Lemma sorted_view_is_stable_witness :
  let st :=
    loaded (JArr [ JObj [("id", JNum 1);
                         ("timestamp", JStr "2024-03-05T10:30:00Z")];
                   JObj [("id", JNum 2);
                         ("timestamp", JStr "2024-01-01T00:00:00Z")];
                   JObj [("id", JNum 3);
                         ("timestamp", JStr "2024-03-05T10:30:00Z")] ]) in
  Forall (λ a, is_Some (timestamp_time a)) (IncidentList.incidents st)
  ∧ ids (IncidentList.sortedIncidents (by_timestamp asc st))
    = [JNum 2; JNum 1; JNum 3]
  ∧ filter (λ a, timestamp_time a = Some 1709634600000%Z)
      (IncidentList.sortedIncidents (by_timestamp asc st))
    = filter (λ a, timestamp_time a = Some 1709634600000%Z)
        (IncidentList.incidents st).
Proof.
  intros st.
  assert (Forall (λ a, is_Some (timestamp_time a)) (IncidentList.incidents st))
    as Hall by (repeat constructor; by eexists).
  split; [exact Hall | split; [vm_compute; reflexivity |]].
  exact (sorted_view_is_stable asc 1709634600000%Z st Hall).
Defined.

(** X14 at a type that names a bank card and an address, and at an entry
    without a type. *)
Lemma severity_by_keyword_witness :
  mentions "Банковская карта и Email" high_words
  ∧ IncidentListV1.getSeverityClass (JStr "Банковская карта и Email")
    = Normal high
  ∧ IncidentListV1.row_severity (JObj [("id", JNum 1)])
    = Throw (TypeError JUndefined "includes").
Proof.
  destruct severity_by_keyword as (Hhigh & _ & _ & Hthrow).
  assert (mentions "Банковская карта и Email" high_words) as Hm.
  { exists "Банковская карта", "", " и Email".
    split; [compute_done | reflexivity]. }
  split; [exact Hm | split; [exact (Hhigh _ Hm) |]].
  apply (Hthrow _ (list_to_map [("id", JNum 1)])); reflexivity.
Defined.

(** X15 at two ids. *)
Lemma kibanaUrl_injective_witness :
  kibanaUrl "k3x90" ≠ kibanaUrl "k3x91"
  ∧ kibanaUrl "k3x90"
    = "http://localhost:5601/app/discover#/?_a=(query:(language:kuery,query:'incident_id:k3x90'))".
Proof.
  destruct kibanaUrl_injective as (_ & Hinj).
  split; [| reflexivity].
  intros E. apply Hinj in E. discriminate.
Defined.

(** X16 at the state holding incidents 1 and 2 with the stale id 9 and
    the id 1 selected. *)
Lemma checked_rows_and_count_witness :
  let st := IncidentList.setSelectedIncidents {[ JNum 1; JNum 9 ]}
              (loaded two_entries) in
  NoDup (ids (IncidentList.incidents st))
  ∧ IncidentList.selectedIncidents st
    ⊈ list_to_set (ids (IncidentList.incidents st))
  ∧ ∃ t, IncidentList.render st = IncidentList.IncidentTable t
         ∧ length (IncidentList.rows t) = 2%nat
         ∧ IncidentList.count_selected t = 2%nat
         ∧ (length (filter (λ row : Incident * bool, row.2 = true)
                      (IncidentList.rows t)) < 2)%nat.
Proof.
  intros st.
  assert (NoDup (ids (IncidentList.incidents st))) as Hnd by compute_done.
  assert (IncidentList.selectedIncidents st
          ⊈ list_to_set (ids (IncidentList.incidents st))) as Hstale.
  { intros Hsub. assert (JNum 9 ∈ ({[JNum 1; JNum 2]} : gset JsVal)) as Hin.
    { apply (Hsub (JNum 9)). apply elem_of_union. right.
      by apply elem_of_singleton. }
    apply elem_of_union in Hin as [Hin | Hin];
      apply elem_of_singleton in Hin; discriminate. }
  split; [exact Hnd | split; [exact Hstale |]].
  eexists. split; [reflexivity |].
  match goal with
  | |- length (IncidentList.rows ?t) = _ ∧ _ =>
      destruct (checked_rows_and_count st t eq_refl) as (Hrows & Hcount)
  end.
  destruct (Hcount Hnd) as (_ & _ & Hless).
  split; [rewrite Hrows; vm_compute; reflexivity |].
  split; [vm_compute; reflexivity |].
  exact (Hless Hstale).
Defined.

(** X17 at a payload that is a bare array and at one whose incidents is a
    number. *)
Lemma trusting_variant_stores_payload_witness :
  IncidentListV1.incidents
    (IncidentListV1.fetchIncidents (Resolved (JArr [JObj [("id", JNum 1)]]))
       IncidentListV1.initial) = JArr []
  ∧ IncidentListV1.sortedIncidents
      (IncidentListV1.fetchIncidents (Resolved (JObj [("incidents", JNum 5)]))
         IncidentListV1.initial)
    = Throw (TypeError (JNum 5) "Symbol.iterator").
Proof.
  split.
  - destruct (trusting_variant_stores_payload (JArr [JObj [("id", JNum 1)]])
                (index_props [JObj [("id", JNum 1)]]) IncidentListV1.initial
                eq_refl) as (_ & _ & Hempty & _).
    apply Hempty. reflexivity.
  - destruct (trusting_variant_stores_payload (JObj [("incidents", JNum 5)])
                (list_to_map [("incidents", JNum 5)]) IncidentListV1.initial
                eq_refl) as (_ & _ & _ & Hthrow).
    apply (Hthrow (JNum 5)); [reflexivity | reflexivity | exact I].
Defined.

End samples_more.
